(** * Csound.hxx: a shallow embedding of the host-side Csound controller

    The development follows [src/inst/include/csound/Csound.hxx]:

    - [ArgParser]: the whitespace tokenizer built on [strtok];
    - [CsoundThreadEvent] and its two subclasses, the commands carried by
      the event queue;
    - [CSound]: the controller object, its performance thread routine and
      the host operations [perform], [stop], [destroy], [readScore],
      [scoreEvent], [runUtility] and [getControlChannel].

    The Csound C API ([csound.h]) is not part of the file; it is taken as
    an interface ([Engine]) over which every definition is parametric. *)

From Stdlib Require Import ZArith List String Ascii Bool Lia.
From Stdlib Require Import Floats Uint63.
Import ListNotations.

Local Open Scope Z_scope.

(* ------------------------------------------------------------------ *)
(** * C strings and [strtok] *)

Definition NUL : ascii := Ascii.zero.

(** The tokenizer's delimiter set, the literal [" \t\r\n"]. *)
Definition delimiters : list ascii :=
  [" "%char; "009"%char; "013"%char; "010"%char].

Definition is_delim (c : ascii) : bool :=
  existsb (Ascii.eqb c) delimiters.

Definition is_nul (c : ascii) : bool := Ascii.eqb c NUL.

(** [std::string::c_str] read as a C string: the characters in front of
    the first NUL. This is what [strdup] copies. *)
Fixpoint c_str (s : list ascii) : list ascii :=
  match s with
  | [] => []
  | c :: r => if is_nul c then [] else c :: c_str r
  end.

Definition strdup (s : list ascii) : list ascii := c_str s.

(** What a callee handed [s.c_str()] reads of the [std::string] [s]. *)
Definition c_str_of (s : string) : string :=
  string_of_list_ascii (c_str (list_ascii_of_string s)).

(** A [char *] into the duplicated block is an offset; the byte one past
    the block's contents is the terminating NUL. *)
Definition peek (mem : list ascii) (p : nat) : ascii :=
  hd NUL (skipn p mem).

Definition poke (mem : list ascii) (p : nat) (c : ascii) : list ascii :=
  firstn p mem ++ c :: skipn (S p) mem.

(** The C string found at offset [p]. *)
Definition cstr_at (mem : list ascii) (p : nat) : list ascii :=
  c_str (skipn p mem).

Fixpoint strspn (s : list ascii) : nat :=
  match s with
  | c :: r => if is_delim c then S (strspn r) else O
  | [] => O
  end.

Fixpoint strcspn (s : list ascii) : nat :=
  match s with
  | c :: r => if is_delim c || is_nul c then O else S (strcspn r)
  | [] => O
  end.

(** [strtok] keeps a hidden pointer between calls; it is threaded here
    together with the block the pointers refer to. *)
Record strtok_state : Type := { mem : list ascii; save : nat }.

Definition strtok (str : option nat) (st : strtok_state)
  : option nat * strtok_state :=
  let p0 := match str with Some p => p | None => save st end in
  let p := (p0 + strspn (skipn p0 (mem st)))%nat in
  if is_nul (peek (mem st) p) then
    (None, {| mem := mem st; save := p |})
  else
    let q := (p + strcspn (skipn p (mem st)))%nat in
    if is_nul (peek (mem st) q) then
      (Some p, {| mem := mem st; save := q |})
    else
      (Some p, {| mem := poke (mem st) q NUL; save := S q |}).

(* ------------------------------------------------------------------ *)
(** * [struct ArgParser] *)

(** [buffer] is the duplicated block after tokenization; [argv] holds
    pointers into it, [None] standing for [nullptr]. *)
Record ArgParser : Type := { buffer : list ascii; argv : list (option nat) }.

(** The [while (token != nullptr)] loop of the constructor. *)
Fixpoint ArgParser_loop (fuel : nat) (token : option nat) (st : strtok_state)
    (argv : list (option nat)) : option (strtok_state * list (option nat)) :=
  match token with
  | None => Some (st, argv)
  | Some _ =>
      match fuel with
      | O => None
      | S fuel' =>
          let '(token', st') := strtok None st in
          let argv' :=
            match token' with
            | Some _ => argv ++ [token']
            | None => argv
            end in
          ArgParser_loop fuel' token' st' argv'
      end
  end.

(** [ArgParser::ArgParser(const std::string buffer_)]. *)
Definition ArgParser_ctor (buffer_ : string) : option ArgParser :=
  let block := strdup (list_ascii_of_string buffer_) in
  let '(token, st) := strtok (Some O) {| mem := block; save := O |} in
  let argv0 :=
    match token with
    | Some _ => [token]
    | None => []
    end in
  let argv1 := argv0 ++ [token] in
  match ArgParser_loop (S (List.length block)) token st argv1 with
  | Some (st', argv') => Some {| buffer := mem st'; argv := argv' |}
  | None => None
  end.

(** The text a stored pointer designates. *)
Definition ArgParser_text (a : ArgParser) (p : option nat) : option string :=
  match p with
  | Some off => Some (string_of_list_ascii (cstr_at (buffer a) off))
  | None => None
  end.

(** The command holds a token when some character in front of its first
    NUL is not a delimiter. *)
Definition has_token (buffer_ : string) : bool :=
  existsb (fun c => negb (is_delim c))
          (c_str (list_ascii_of_string buffer_)).

(* ------------------------------------------------------------------ *)
(** * Outcomes of C++ code *)

(** Code whose behaviour the language leaves undefined has no result. *)
Inductive undefined : Type :=
| OutOfBounds        (* [operator[]] past the end of a [std::vector] *)
| SignedOverflow.    (* [++] on an [int] holding [INT_MAX] *)

Inductive outcome (A : Type) : Type :=
| Ok (a : A)
| Undefined (u : undefined)
| OutOfFuel.         (* the model's fuel ran out *)

Arguments Ok {A} a.
Arguments Undefined {A} u.
Arguments OutOfFuel {A}.

Definition INT_MAX : Z := 2147483647.

(** A [CSOUND *]; [0] is the null pointer. *)
Definition CSOUND_ptr : Type := Z.

(* ------------------------------------------------------------------ *)
(** * The event classes *)

Record CsoundThreadEventScoreEvent (MYFLT : Type) : Type :=
  { opcode : ascii; pfields : list MYFLT }.

Arguments opcode {MYFLT} _.
Arguments pfields {MYFLT} _.

Record CsoundThreadEventScore : Type := { score : string }.

(** An object reachable through a [CsoundThreadEvent *]: the base class
    or one of its two subclasses. *)
Inductive CsoundThreadEvent (MYFLT : Type) : Type :=
| BaseEvent
| ScoreEventObj (e : CsoundThreadEventScoreEvent MYFLT)
| ScoreObj (e : CsoundThreadEventScore).

Arguments BaseEvent {MYFLT}.
Arguments ScoreEventObj {MYFLT} e.
Arguments ScoreObj {MYFLT} e.

Section EventConstructors.
Context {MYFLT : Type}.

(** The [for] loop of the score event's constructor. [i] and
    [pfield_count] are the loop's two [int]s and [pfields] is the member
    vector, which is both the vector pushed to and the vector indexed. *)
Fixpoint CsoundThreadEventScoreEvent_loop (fuel : nat) (i pfield_count : Z)
    (pfields : list MYFLT) : outcome (list MYFLT) :=
  if i <? pfield_count then
    match fuel with
    | O => OutOfFuel
    | S fuel' =>
        match nth_error pfields (Z.to_nat i) with
        | None => Undefined OutOfBounds
        | Some x =>
            if pfield_count =? INT_MAX then Undefined SignedOverflow
            else CsoundThreadEventScoreEvent_loop
                   fuel' i (pfield_count + 1) (pfields ++ [x])
        end
    end
  else Ok pfields.

(** [CsoundThreadEventScoreEvent(char opcode_, MYFLT *pfields_,
    int pfield_count)]. The caller's buffer [pfields_] is a parameter the
    body never mentions. *)
Definition CsoundThreadEventScoreEvent_ctor (fuel : nat) (opcode_ : ascii)
    (pfields_ : list MYFLT) (pfield_count : Z)
  : outcome (CsoundThreadEventScoreEvent MYFLT) :=
  match CsoundThreadEventScoreEvent_loop fuel 0 pfield_count [] with
  | Ok v => Ok {| opcode := opcode_; pfields := v |}
  | Undefined u => Undefined u
  | OutOfFuel => OutOfFuel
  end.

Definition CsoundThreadEventScore_ctor (score_ : string)
  : CsoundThreadEventScore := {| score := score_ |}.

End EventConstructors.

(* ------------------------------------------------------------------ *)
(** * The Csound C API *)

(** The functions of [csound.h] the controller calls. The engine's state
    lives behind the [CSOUND *]; it is threaded as a value of type
    [World]. A function with an [int] result returns it next to the new
    world. *)
Class Engine (MYFLT World : Type) : Type := {
  csoundCreate : Z -> World -> CSOUND_ptr * World;
  csoundDestroy : CSOUND_ptr -> World -> World;
  csoundScoreEvent :
    CSOUND_ptr -> ascii -> list MYFLT -> Z -> World -> Z * World;
  csoundReadScore : CSOUND_ptr -> string -> World -> Z * World;
  csoundPerformKsmps : CSOUND_ptr -> World -> Z * World;
  csoundCleanup : CSOUND_ptr -> World -> Z * World;
  csoundReset : CSOUND_ptr -> World -> World;
  (** the value returned and the value left in [*err] *)
  csoundGetControlChannel : CSOUND_ptr -> string -> World -> MYFLT * Z;
  csoundRunUtility :
    CSOUND_ptr -> option string -> Z -> list (option string) -> World
    -> Z * World
}.

(** The conversion [int -> MYFLT] the language inserts at
    [return error;]. *)
Class IntToFloat (MYFLT : Type) : Type := { MYFLT_of_int : Z -> MYFLT }.

(* ------------------------------------------------------------------ *)
(** * [class CSound] *)

(** Where the performance thread stands inside
    [performanceThreadRoutine]. Each point is in front of one access to
    shared state (the running flag, the queue or the engine). *)
Inductive pc : Type :=
| AtEntry          (* [if (is_running)]                       *)
| AtLoopTest       (* [while ((is_running == 1) && ...)]       *)
| AtPop            (* inner [while (csound_event_queue.pop)]   *)
| AtPerformKsmps   (* [is_finished = csoundPerformKsmps]       *)
| AtCleanup        (* [int result = csoundCleanup]             *)
| AtReset          (* [csoundReset]                            *)
| AtFinalPop       (* final [while (csound_event_queue.pop)]   *)
| Returned (r : Z).

(** A [std::thread] running the routine, with the routine's locals. *)
Record Thread : Type := { at_pc : pc; is_finished : Z; result : Z }.

Definition new_thread : Thread :=
  {| at_pc := AtEntry; is_finished := 0; result := 0 |}.

Definition has_returned (t : Thread) : bool :=
  match at_pc t with
  | Returned _ => true
  | _ => false
  end.

Section Controller.
Context {MYFLT World : Type} {E : Engine MYFLT World}.

(** What an observer of the engine and of the heap sees, in order. *)
Inductive event : Type :=
| EvCall (e : CsoundThreadEvent MYFLT)     (* [operator()] on the event *)
| EvDelete (e : CsoundThreadEvent MYFLT)   (* [delete event]          *)
| EvPerformKsmps
| EvCleanup
| EvReset
| EvJoin                                   (* [performance_thread->join()] *)
| EvSpawn                                  (* [new std::thread(...)]  *)
| EvDestroy.                               (* [csoundDestroy(csound)] *)

(** The object's members, the engine's world they point into, and the
    observation history [trace] (not a member; it records the calls
    made so that their order can be stated). The queue is read as a FIFO:
    [push] appends, [pop] takes the head. *)
Record CSound : Type := {
  csound : CSOUND_ptr;
  is_running : Z;
  csound_event_queue : list (CsoundThreadEvent MYFLT);
  performance_thread : option Thread;
  world : World;
  trace : list event
}.

(** [CSound::CSound()], over a given world. *)
Definition CSound_ctor (w : World) : CSound :=
  {| csound := 0; is_running := 0; csound_event_queue := [];
     performance_thread := None; world := w; trace := [] |}.

Definition set_is_running (v : Z) (s : CSound) : CSound :=
  {| csound := csound s; is_running := v;
     csound_event_queue := csound_event_queue s;
     performance_thread := performance_thread s;
     world := world s; trace := trace s |}.

Definition set_queue (q : list (CsoundThreadEvent MYFLT)) (s : CSound)
  : CSound :=
  {| csound := csound s; is_running := is_running s;
     csound_event_queue := q;
     performance_thread := performance_thread s;
     world := world s; trace := trace s |}.

Definition set_thread (t : option Thread) (s : CSound) : CSound :=
  {| csound := csound s; is_running := is_running s;
     csound_event_queue := csound_event_queue s;
     performance_thread := t;
     world := world s; trace := trace s |}.

Definition set_world (w : World) (s : CSound) : CSound :=
  {| csound := csound s; is_running := is_running s;
     csound_event_queue := csound_event_queue s;
     performance_thread := performance_thread s;
     world := w; trace := trace s |}.

Definition set_csound (p : CSOUND_ptr) (s : CSound) : CSound :=
  {| csound := p; is_running := is_running s;
     csound_event_queue := csound_event_queue s;
     performance_thread := performance_thread s;
     world := world s; trace := trace s |}.

Definition observe (evs : list event) (s : CSound) : CSound :=
  {| csound := csound s; is_running := is_running s;
     csound_event_queue := csound_event_queue s;
     performance_thread := performance_thread s;
     world := world s; trace := trace s ++ evs |}.

Definition goto (p : pc) (t : Thread) : Thread :=
  {| at_pc := p; is_finished := is_finished t; result := result t |}.

(** The virtual [operator()], applied to the engine handle. *)
Definition call (e : CsoundThreadEvent MYFLT) (p : CSOUND_ptr) (w : World)
  : Z * World :=
  match e with
  | BaseEvent => (-1, w)
  | ScoreEventObj e =>
      csoundScoreEvent p (opcode e) (pfields e)
                       (Z.of_nat (List.length (pfields e))) w
  | ScoreObj e => csoundReadScore p (c_str_of (score e)) w
  end.

(** [(is_running == 1) && (is_finished == 0)]. *)
Definition loop_condition (s : CSound) (t : Thread) : bool :=
  (is_running s =? 1) && (is_finished t =? 0).

(** One step of [performanceThreadRoutine] on the performance thread. The
    value an event's call returns is dropped, as in the source. The test
    and the store of the entry are one step: the only store another
    thread makes to the flag is [0], which the test lets through. *)
Definition performanceThreadRoutine_step (s : CSound) : CSound :=
  match performance_thread s with
  | None => s
  | Some t =>
      match at_pc t with
      | AtEntry =>
          if is_running s =? 0 then
            set_thread
              (Some {| at_pc := AtLoopTest; is_finished := 0;
                       result := result t |})
              (set_is_running 1 s)
          else set_thread (Some (goto (Returned (is_running s)) t)) s
      | AtLoopTest =>
          if loop_condition s t then
            set_thread (Some (goto AtPop t)) s
          else set_thread (Some (goto AtCleanup t)) s
      | AtPop =>
          match csound_event_queue s with
          | e :: q =>
              let '(_, w) := call e (csound s) (world s) in
              observe [EvCall e; EvDelete e] (set_world w (set_queue q s))
          | [] => set_thread (Some (goto AtPerformKsmps t)) s
          end
      | AtPerformKsmps =>
          let '(r, w) := csoundPerformKsmps (csound s) (world s) in
          observe [EvPerformKsmps]
            (set_world w
               (set_thread
                  (Some {| at_pc := AtLoopTest; is_finished := r;
                           result := result t |}) s))
      | AtCleanup =>
          let '(r, w) := csoundCleanup (csound s) (world s) in
          observe [EvCleanup]
            (set_world w
               (set_thread
                  (Some {| at_pc := AtReset; is_finished := is_finished t;
                           result := r |}) s))
      | AtReset =>
          observe [EvReset]
            (set_world (csoundReset (csound s) (world s))
               (set_thread (Some (goto AtFinalPop t)) s))
      | AtFinalPop =>
          match csound_event_queue s with
          | e :: q => observe [EvDelete e] (set_queue q s)
          | [] => set_thread (Some (goto (Returned (result t)) t)) s
          end
      | Returned _ => s
      end
  end.

(** What may happen between two steps of the thread that calls the
    controller: the performance thread moves, or some thread enqueues. *)
Inductive action : Type :=
| Tick
| Push (e : CsoundThreadEvent MYFLT).

Definition push (e : CsoundThreadEvent MYFLT) (s : CSound) : CSound :=
  set_queue (csound_event_queue s ++ [e]) s.

Definition act (a : action) (s : CSound) : CSound :=
  match a with
  | Tick => performanceThreadRoutine_step s
  | Push e => push e s
  end.

Fixpoint run (sched : list action) (s : CSound) : CSound :=
  match sched with
  | [] => s
  | a :: rest => run rest (act a s)
  end.

(** The enqueues of a schedule, in order. *)
Fixpoint pushed (sched : list action) : list (CsoundThreadEvent MYFLT) :=
  match sched with
  | [] => []
  | Tick :: rest => pushed rest
  | Push e :: rest => e :: pushed rest
  end.

(** [CSound::stop]. [sched] is what the other threads do while the
    caller is blocked in [join]; [None] means the thread has not returned
    by the end of [sched], so [join] has not returned either. A thread
    made by [perform] is joinable until it is joined here. *)
Definition stop (sched : list action) (s : CSound) : option (Z * CSound) :=
  let temp := is_running s in
  let s1 := set_is_running 0 s in
  match performance_thread s1 with
  | None => Some (temp, s1)
  | Some _ =>
      let s2 := run sched s1 in
      match performance_thread s2 with
      | Some t =>
          if has_returned t
          then Some (temp, observe [EvJoin] (set_thread None s2))
          else None
      | None => None
      end
  end.

(** [CSound::stop] with its first two statements apart: [pre] is what
    the other threads do between [int temp = is_running;] and
    [is_running = 0;], [sched] what they do while the caller is blocked
    in [join]. *)
Definition stop_interleaved (pre sched : list action) (s : CSound)
  : option (Z * CSound) :=
  let temp := is_running s in
  let s1 := set_is_running 0 (run pre s) in
  match performance_thread s1 with
  | None => Some (temp, s1)
  | Some _ =>
      let s2 := run sched s1 in
      match performance_thread s2 with
      | Some t =>
          if has_returned t
          then Some (temp, observe [EvJoin] (set_thread None s2))
          else None
      | None => None
      end
  end.

(** [CSound::perform]; the handle returned is the new state's
    [performance_thread]. *)
Definition perform (sched : list action) (s : CSound)
  : option (option Thread * CSound) :=
  match stop sched s with
  | None => None
  | Some (_, s1) =>
      Some (Some new_thread,
            observe [EvSpawn] (set_thread (Some new_thread) s1))
  end.

(** [CSound::destroy], which is also the destructor's body. *)
Definition destroy (sched : list action) (s : CSound) : option CSound :=
  if csound s =? 0 then Some s
  else
    match stop sched s with
    | None => None
    | Some (_, s1) =>
        Some (observe [EvDestroy]
                (set_world (csoundDestroy (csound s1) (world s1)) s1))
    end.

(** [CSound::create(void *userdata)]. *)
Definition create (sched : list action) (userdata : Z) (s : CSound)
  : option (CSOUND_ptr * CSound) :=
  match destroy sched s with
  | None => None
  | Some s1 =>
      let '(p, w) := csoundCreate userdata (world s1) in
      Some (p, set_world w (set_csound p s1))
  end.

Definition isPerforming (s : CSound) : bool := negb (is_running s =? 0).

Definition readScore (score_ : string) (s : CSound) : CSound :=
  push (ScoreObj (CsoundThreadEventScore_ctor score_)) s.

Definition scoreEvent (fuel : nat) (opcode_ : ascii) (pfields_ : list MYFLT)
    (pfield_count : Z) (s : CSound) : outcome CSound :=
  match CsoundThreadEventScoreEvent_ctor fuel opcode_ pfields_ pfield_count
  with
  | Ok e => Ok (push (ScoreEventObj e) s)
  | Undefined u => Undefined u
  | OutOfFuel => OutOfFuel
  end.

(** The arguments [runUtility] hands to [csoundRunUtility]: [argv[0]],
    [argv.size() - 1] and the array starting at [&argv[1]]. Both
    [argv[0]] and [argv[1]] are [operator[]] on the vector: with fewer
    than two elements stored, one of them is past the end. *)
Definition runUtility_args (a : ArgParser)
  : outcome (option string * Z * list (option string)) :=
  match argv a with
  | name :: first :: rest =>
      Ok (ArgParser_text a name,
          Z.of_nat (List.length (argv a)) - 1,
          map (ArgParser_text a) (first :: rest))
  | _ => Undefined OutOfBounds
  end.

(** [CSound::runUtility]. *)
Definition runUtility (command : string) (s : CSound)
  : outcome (Z * CSound) :=
  match ArgParser_ctor command with
  | None => OutOfFuel
  | Some a =>
      match runUtility_args a with
      | Ok (name, argc, args) =>
          let '(r, w) :=
            csoundRunUtility (csound s) name argc args (world s) in
          Ok (r, set_world w s)
      | Undefined u => Undefined u
      | OutOfFuel => OutOfFuel
      end
  end.

(** Calling the events of a list on the engine, first to last. *)
Definition apply_all (p : CSOUND_ptr) (q : list (CsoundThreadEvent MYFLT))
    (w : World) : World :=
  fold_left (fun w' e => snd (call e p w')) q w.

(** What is observed when each event of a list is called and freed. *)
Definition called (q : list (CsoundThreadEvent MYFLT)) : list event :=
  flat_map (fun e => [EvCall e; EvDelete e]) q.



(** The thread exists and has not yet run the routine's entry test. *)
Definition at_entry (s : CSound) : bool :=
  match performance_thread s with
  | Some t =>
      match at_pc t with
      | AtEntry => true
      | _ => false
      end
  | None => false
  end.


Definition thread_returned (s : CSound) : bool :=
  match performance_thread s with
  | Some t => has_returned t
  | None => false
  end.

Context {F : IntToFloat MYFLT}.

Definition getControlChannel (channel : string) (s : CSound) : MYFLT :=
  let '(value, error) := csoundGetControlChannel (csound s) channel (world s)
  in
  if negb (error =? 0) then MYFLT_of_int error else value.

End Controller.

Arguments event : clear implicits.
Arguments action : clear implicits.
Arguments CSound : clear implicits.

(** An engine whose score calls change the world as those of [E] do and
    return the values [se] and [rs] choose. *)
Definition with_status {MYFLT World : Type} (E : Engine MYFLT World)
    (se : CSOUND_ptr -> ascii -> list MYFLT -> Z -> World -> Z)
    (rs : CSOUND_ptr -> string -> World -> Z) : Engine MYFLT World :=
  {| csoundCreate := csoundCreate;
     csoundDestroy := csoundDestroy;
     csoundScoreEvent :=
       fun p op f n w => (se p op f n w, snd (csoundScoreEvent p op f n w));
     csoundReadScore :=
       fun p sc w => (rs p sc w, snd (csoundReadScore p sc w));
     csoundPerformKsmps := csoundPerformKsmps;
     csoundCleanup := csoundCleanup;
     csoundReset := csoundReset;
     csoundGetControlChannel := csoundGetControlChannel;
     csoundRunUtility := csoundRunUtility |}.

(** What the specification asks of the score event's constructor: the
    first [pfield_count] elements of the caller's buffer, in order. *)
Definition copied_pfields {MYFLT : Type} (pfields_ : list MYFLT)
    (pfield_count : Z) : list MYFLT :=
  firstn (Z.to_nat pfield_count) pfields_.

(* ------------------------------------------------------------------ *)
(** * A recording stub engine over doubles *)

(** The engine calls a stub has received, in order. *)
Inductive StubCall : Type :=
| CallCreate (userdata : Z)
| CallDestroy
| CallScoreEvent (op : ascii) (p : list float) (n : Z)
| CallReadScore (sc : string)
| CallPerformKsmps
| CallCleanup
| CallReset
| CallRunUtility (name : option string) (argc : Z)
                 (args : list (option string)).

Fixpoint blocks (w : list StubCall) : nat :=
  match w with
  | [] => O
  | CallPerformKsmps :: r => S (blocks r)
  | _ :: r => blocks r
  end.

(** The stub reports the performance finished from its [limit]-th block
    on, answers [status] to every score call and reads channels from
    [channel]. *)
Definition StubEngine (limit : nat) (status : Z)
    (channel : string -> float * Z) : Engine float (list StubCall) :=
  {| csoundCreate := fun u w => (1, w ++ [CallCreate u]);
     csoundDestroy := fun _ w => w ++ [CallDestroy];
     csoundScoreEvent :=
       fun _ op p n w => (status, w ++ [CallScoreEvent op p n]);
     csoundReadScore := fun _ sc w => (status, w ++ [CallReadScore sc]);
     csoundPerformKsmps :=
       fun _ w =>
         let w' := w ++ [CallPerformKsmps] in
         ((if (limit <=? blocks w')%nat then 1 else 0), w');
     csoundCleanup := fun _ w => (0, w ++ [CallCleanup]);
     csoundReset := fun _ w => w ++ [CallReset];
     csoundGetControlChannel := fun _ name _ => channel name;
     csoundRunUtility :=
       fun _ name argc args w => (0, w ++ [CallRunUtility name argc args])
  |}.

(** [int -> double]; exact on the range of [int]. *)
Definition double_of_int (z : Z) : float :=
  match z with
  | Z0 => 0%float
  | Zpos _ => PrimFloat.of_uint63 (Uint63.of_Z z)
  | Zneg q => PrimFloat.opp (PrimFloat.of_uint63 (Uint63.of_Z (Zpos q)))
  end.

Definition DoubleOfInt : IntToFloat float :=
  {| MYFLT_of_int := double_of_int |}.

(** Channels of the stub: ["level"] reads [-1.0]; any other name fails
    with the error code [-1]. *)
Definition stub_channel (name : string) : float * Z :=
  if String.eqb name "level" then ((-1)%float, 0) else (0%float, -1).

(** A stub whose performance ends with its second block. *)
Definition Stub2 : Engine float (list StubCall) :=
  StubEngine 2 0 stub_channel.

(** The event [scoreEvent('i', p, 0)] enqueues. *)
Definition note : CsoundThreadEvent float :=
  ScoreEventObj {| opcode := "i"%char; pfields := [] |}.

(** The event [readScore("i 1 0")] enqueues: a statement with too few
    pfields. *)
Definition bad_score : CsoundThreadEvent float :=
  ScoreObj (CsoundThreadEventScore_ctor "i 1 0")%string.

(** A controller whose engine exists and has performed nothing. *)
Definition ready : CSound float (list StubCall) :=
  set_csound 1 (CSound_ctor []).

(** [ready] after [perform]: the thread exists and has not run yet. *)
Definition spawned : CSound float (list StubCall) :=
  match perform (E := Stub2) [] ready with
  | Some (_, s) => s
  | None => ready
  end.

(** [spawned] after the thread has entered and rendered one block. *)
Definition performing : CSound float (list StubCall) :=
  run (E := Stub2) [Tick; Tick; Tick; Tick] spawned.

(** [performing] with two commands waiting and the thread about to pop. *)
Definition draining : CSound float (list StubCall) :=
  run (E := Stub2) [Push bad_score; Push note; Tick] performing.

(* ------------------------------------------------------------------ *)
(** * Reference notions for the further properties *)

(** The words of a text: its maximal runs of characters that are not
    delimiters, first to last. [cur] is the run being read, its latest
    character first. *)
Fixpoint split_ws (cur : list ascii) (l : list ascii) : list (list ascii) :=
  match l with
  | [] =>
      match cur with
      | [] => []
      | _ => [rev cur]
      end
  | c :: r =>
      if is_delim c then
        match cur with
        | [] => split_ws [] r
        | _ => rev cur :: split_ws [] r
        end
      else split_ws (c :: cur) r
  end.

(** The words of a command, read as a C string. *)
Definition words (command : string) : list string :=
  map string_of_list_ascii
      (split_ws [] (c_str (list_ascii_of_string command))).

(** The events freed along a history, in order. *)
Fixpoint freed {MYFLT : Type} (tr : list (event MYFLT))
  : list (CsoundThreadEvent MYFLT) :=
  match tr with
  | [] => []
  | EvDelete e :: r => e :: freed r
  | _ :: r => freed r
  end.

(** The thread is inside the [while] loop and its next loop test will
    succeed as far as [is_finished] goes. *)
Definition in_loop {MYFLT World : Type} (s : CSound MYFLT World) : bool :=
  match performance_thread s with
  | None => false
  | Some t =>
      match at_pc t with
      | AtLoopTest | AtPop | AtPerformKsmps => is_finished t =? 0
      | _ => false
      end
  end.

(** An engine whose performance never reports its end. *)
Definition never_finishes {MYFLT World : Type} (E : Engine MYFLT World)
  : Prop :=
  forall p w, fst (csoundPerformKsmps p w) = 0.

(** [E] with the result of [csoundPerformKsmps] replaced by [0]. *)
Definition endless {MYFLT World : Type} (E : Engine MYFLT World)
  : Engine MYFLT World :=
  {| csoundCreate := csoundCreate;
     csoundDestroy := csoundDestroy;
     csoundScoreEvent := csoundScoreEvent;
     csoundReadScore := csoundReadScore;
     csoundPerformKsmps := fun p w => (0, snd (csoundPerformKsmps p w));
     csoundCleanup := csoundCleanup;
     csoundReset := csoundReset;
     csoundGetControlChannel := csoundGetControlChannel;
     csoundRunUtility := csoundRunUtility |}.

(** [spawned] after a second [perform] whose [stop] ran before the first
    thread had started: the first thread has performed to its end, and
    the second stands at its entry with the flag set. *)
Definition respawned : CSound float (list StubCall) :=
  match perform (E := Stub2) (repeat Tick 11) spawned with
  | Some (_, s) => s
  | None => spawned
  end.

(* ==================================================================== *)
(** * Properties *)

(** ** ArgParser *)

Example argparser_two_tokens :
  option_map argv (ArgParser_ctor "  sndinfo  a.wav ")
  = Some [Some 2%nat; Some 2%nat; Some 11%nat].
Proof. reflexivity. Qed.

Example argparser_two_tokens_text :
  option_map (fun a => map (ArgParser_text a) (argv a))
             (ArgParser_ctor "  sndinfo  a.wav ")
  = Some [Some "sndinfo"%string; Some "sndinfo"%string; Some "a.wav"%string].
Proof. reflexivity. Qed.

Example argparser_blank :
  option_map argv (ArgParser_ctor "   ") = Some [None].
Proof. reflexivity. Qed.

(** The characters [c_str] keeps are not NUL. *)
Lemma c_str_no_nul (l : list ascii) :
  Forall (fun c => is_nul c = false) (c_str l).
Proof.
  induction l as [|c r IH]; simpl; [constructor|].
  destruct (is_nul c) eqn:Hc; constructor; assumption.
Qed.

Lemma strspn_le (l : list ascii) : (strspn l <= List.length l)%nat.
Proof.
  induction l as [|c r IH]; simpl; [lia|].
  destruct (is_delim c); lia.
Qed.

Lemma strcspn_le (l : list ascii) : (strcspn l <= List.length l)%nat.
Proof.
  induction l as [|c r IH]; simpl; [lia|].
  destruct (is_delim c || is_nul c); lia.
Qed.

(** [strspn] stops in front of a character that is no delimiter. *)
Lemma strspn_stops (l : list ascii) :
  is_delim (hd NUL (skipn (strspn l) l)) = false.
Proof.
  induction l as [|c r IH]; simpl; [reflexivity|].
  destruct (is_delim c) eqn:Hc; simpl; assumption.
Qed.

Lemma strspn_reaches_end (l : list ascii) :
  Forall (fun c => is_nul c = false) l ->
  is_nul (hd NUL (skipn (strspn l) l))
  = negb (existsb (fun c => negb (is_delim c)) l).
Proof.
  induction 1 as [|c r Hc Hr IH]; simpl; [reflexivity|].
  destruct (is_delim c) eqn:Hd; simpl; [exact IH|exact Hc].
Qed.

Lemma peek_add (m : list ascii) (a b : nat) :
  peek m (a + b) = hd NUL (skipn b (skipn a m)).
Proof. unfold peek. now rewrite skipn_skipn, Nat.add_comm. Qed.

Lemma peek_past_end (m : list ascii) (p : nat) :
  (List.length m <= p)%nat -> is_nul (peek m p) = true.
Proof.
  intros H. unfold peek. now rewrite skipn_all2.
Qed.

Lemma poke_length (m : list ascii) (p : nat) (c : ascii) :
  (p < List.length m)%nat -> List.length (poke m p c) = List.length m.
Proof.
  intros H. unfold poke.
  rewrite length_app, length_firstn. cbn [List.length].
  rewrite length_skipn. lia.
Qed.

(** A call of [strtok] keeps the block's size and its pointer inside the
    block, and a call that finds a token moves the pointer forward. *)
Lemma strtok_progress (str : option nat) (st : strtok_state) :
  let p0 := match str with Some p => p | None => save st end in
  (p0 <= List.length (mem st))%nat ->
  List.length (mem (snd (strtok str st))) = List.length (mem st)
  /\ (save (snd (strtok str st)) <= List.length (mem st))%nat
  /\ (fst (strtok str st) <> None -> (p0 < save (snd (strtok str st)))%nat).
Proof.
  intros p0 Hp0. unfold strtok. fold p0.
  set (sfx := skipn p0 (mem st)).
  assert (Hsfx : List.length sfx = (List.length (mem st) - p0)%nat)
    by (unfold sfx; apply length_skipn).
  pose proof (strspn_le sfx) as Hspn.
  set (p := (p0 + strspn sfx)%nat).
  destruct (is_nul (peek (mem st) p)) eqn:Hnul; simpl.
  - repeat split; [lia|congruence].
  - set (sfx2 := skipn p (mem st)).
    assert (Hsfx2 : List.length sfx2 = (List.length (mem st) - p)%nat)
      by (unfold sfx2; apply length_skipn).
    pose proof (strcspn_le sfx2) as Hcspn.
    assert (Hplt : (p < List.length (mem st))%nat).
    { destruct (Nat.lt_ge_cases p (List.length (mem st))) as [Hlt|Hge];
        [exact Hlt|].
      rewrite (peek_past_end _ _ Hge) in Hnul. discriminate. }
    assert (Hpos : (1 <= strcspn sfx2)%nat).
    { assert (Hhd : peek (mem st) p = hd NUL sfx2) by reflexivity.
      assert (Hdel : is_delim (peek (mem st) p) = false).
      { unfold p. rewrite peek_add. apply strspn_stops. }
      destruct sfx2 as [|c r]; [simpl in Hsfx2; lia|].
      simpl in Hhd. rewrite Hhd in Hnul, Hdel. simpl.
      rewrite Hdel, Hnul. simpl. lia. }
    destruct (is_nul (peek (mem st) (p + strcspn sfx2))) eqn:Hq; simpl.
    + repeat split; lia.
    + assert (Hqlt : (p + strcspn sfx2 < List.length (mem st))%nat).
      { destruct (Nat.lt_ge_cases (p + strcspn sfx2) (List.length (mem st)))
          as [Hlt|Hge]; [exact Hlt|].
        rewrite (peek_past_end _ _ Hge) in Hq. discriminate. }
      repeat split; [apply poke_length; exact Hqlt|lia|lia].
Qed.

(** With more fuel than characters left, the constructor's loop ends. *)
Lemma ArgParser_loop_total (fuel : nat) :
  forall token st av,
    (save st <= List.length (mem st))%nat ->
    (List.length (mem st) - save st < fuel)%nat ->
    exists r, ArgParser_loop fuel token st av = Some r.
Proof.
  induction fuel as [|f IH]; intros token st av Hin Hfuel; [lia|].
  destruct token as [t|]; simpl; [|eauto].
  pose proof (strtok_progress None st Hin) as (Hlen & Hsave & Hmove).
  destruct (strtok None st) as [tok' st'] eqn:Htok. simpl in *.
  destruct tok' as [t'|].
  - apply IH; [lia|].
    assert (save st < save st')%nat by (apply Hmove; discriminate). lia.
  - destruct f; simpl; eauto.
Qed.

(** The loop only appends to [argv]. *)
Lemma ArgParser_loop_extends (fuel : nat) :
  forall token st av st' av',
    ArgParser_loop fuel token st av = Some (st', av') ->
    exists rest, av' = av ++ rest.
Proof.
  induction fuel as [|f IH]; intros token st av st' av' H.
  - destruct token; simpl in H; [discriminate|].
    injection H as <- <-. exists []. now rewrite app_nil_r.
  - destruct token as [t|]; simpl in H.
    + destruct (strtok None st) as [tok' st1].
      apply IH in H. destruct H as [rest ->].
      destruct tok'; [|eauto].
      rewrite <- app_assoc. eauto.
    + injection H as <- <-. exists []. now rewrite app_nil_r.
Qed.

(** The first call of [strtok] finds a token exactly when the command
    holds one. *)
Lemma strtok_first (command : string) :
  let block := strdup (list_ascii_of_string command) in
  match fst (strtok (Some O) {| mem := block; save := O |}) with
  | Some _ => has_token command = true
  | None => has_token command = false
  end.
Proof.
  intros block. unfold strtok. simpl mem.
  change (0 + strspn (skipn 0 block))%nat with (strspn block).
  unfold peek.
  rewrite (strspn_reaches_end block (c_str_no_nul _)).
  unfold has_token. fold (strdup (list_ascii_of_string command)). fold block.
  destruct (existsb (fun c => negb (is_delim c)) block); simpl.
  - now destruct (is_nul _).
  - reflexivity.
Qed.


(** ** The score event's constructor *)

(** With no pfield to copy the loop is not entered. *)
Lemma CsoundThreadEventScoreEvent_loop_none {MYFLT : Type} (fuel : nat)
    (pfield_count : Z) (v : list MYFLT) :
  pfield_count <= 0 ->
  CsoundThreadEventScoreEvent_loop fuel 0 pfield_count v = Ok v.
Proof.
  intros H. destruct fuel; simpl;
    destruct (0 <? pfield_count) eqn:Hlt; try reflexivity; lia.
Qed.

(** With a positive count the first iteration indexes the empty member
    vector. *)
Lemma CsoundThreadEventScoreEvent_loop_first {MYFLT : Type} (fuel : nat)
    (pfield_count : Z) :
  0 < pfield_count ->
  @CsoundThreadEventScoreEvent_loop MYFLT (S fuel) 0 pfield_count []
  = Undefined OutOfBounds.
Proof.
  intros H. simpl. destruct (0 <? pfield_count) eqn:Hlt; [reflexivity|lia].
Qed.

(** The constructor's result does not depend on the caller's buffer. *)
Lemma CsoundThreadEventScoreEvent_ctor_ignores_buffer {MYFLT : Type}
    (fuel : nat) (opcode_ : ascii) (b1 b2 : list MYFLT) (n : Z) :
  CsoundThreadEventScoreEvent_ctor fuel opcode_ b1 n
  = CsoundThreadEventScoreEvent_ctor fuel opcode_ b2 n.
Proof. reflexivity. Qed.

(** C1, at the event [i 1 0 1] with [pfield_count = 3]: the constructor
    does not build the event that holds the three pfields of the caller's
    buffer. Its first iteration reads element [0] of the still empty
    member vector, which is undefined, and for no amount of fuel does it
    return an event at all; [scoreEvent], which calls it, enqueues
    nothing. *)
Theorem CsoundThreadEventScoreEvent_ctor_does_not_copy :
  copied_pfields [1%float; 0%float; 1%float] 3
  = [1%float; 0%float; 1%float]
  /\ (forall fuel,
        CsoundThreadEventScoreEvent_ctor (S fuel) "i"%char
          [1%float; 0%float; 1%float] 3 = Undefined OutOfBounds)
  /\ (forall fuel e,
        CsoundThreadEventScoreEvent_ctor fuel "i"%char
          [1%float; 0%float; 1%float] 3 <> Ok e)
  /\ (forall fuel,
        scoreEvent (S fuel) "i"%char [1%float; 0%float; 1%float] 3 ready
        = Undefined OutOfBounds).
Proof.
  split; [reflexivity|]. split; [|split].
  - intros fuel. reflexivity.
  - intros [|fuel] e; discriminate.
  - intros fuel. reflexivity.
Qed.

(** ** Reading a control channel *)

(** C10. For every channel name, when the engine leaves a nonzero error
    code in [*err], [getControlChannel] returns that code converted to
    [MYFLT]; a lookup that fails with code [error] and a lookup that
    succeeds with the value [MYFLT_of_int error] give the caller the same
    result. *)
Theorem getControlChannel_returns_error_code
    {MYFLT World : Type} {E : Engine MYFLT World} {F : IntToFloat MYFLT}
    (channel : string) (s : CSound MYFLT World) (value : MYFLT) (error : Z) :
  csoundGetControlChannel (csound s) channel (world s) = (value, error) ->
  error <> 0 ->
  getControlChannel channel s = MYFLT_of_int error
  /\ forall (channel' : string) (s' : CSound MYFLT World),
       csoundGetControlChannel (csound s') channel' (world s')
       = (MYFLT_of_int error, 0) ->
       getControlChannel channel' s' = getControlChannel channel s.
Proof.
  intros Hget Herr. unfold getControlChannel. rewrite Hget.
  destruct (error =? 0) eqn:He; [lia|]. simpl. split; [reflexivity|].
  intros channel' s' Hget'. rewrite Hget'. reflexivity.
Qed.

Lemma getControlChannel_returns_error_code_witness :
  @getControlChannel _ _ Stub2 DoubleOfInt "missing" ready = (-1)%float
  /\ @getControlChannel _ _ Stub2 DoubleOfInt "level" ready
     = @getControlChannel _ _ Stub2 DoubleOfInt "missing" ready.
Proof.
  destruct (@getControlChannel_returns_error_code _ _ Stub2 DoubleOfInt
              "missing" ready 0%float (-1) eq_refl ltac:(discriminate))
    as [H1 H2].
  split; [exact H1|].
  apply (H2 "level"%string ready). reflexivity.
Defined.

(** ** Runs of the performance thread *)

(** Reduces member reads of explicit states and the member updates. *)
Ltac fields :=
  cbn [csound is_running csound_event_queue performance_thread world trace
       at_pc is_finished result].

Ltac setters :=
  unfold push; unfold observe, set_world, set_queue, set_thread,
    set_is_running, set_csound, goto; fields.

Section Runs.
Context {MYFLT World : Type} {E : Engine MYFLT World}.

Local Abbreviation state := (CSound MYFLT World).
Local Abbreviation tevent := (CsoundThreadEvent MYFLT).


Lemma run_app (a b : list (action MYFLT)) (s : state) :
  run (a ++ b) s = run b (run a s).
Proof. revert s. induction a as [|x a IH]; intros s; simpl; auto. Qed.

Lemma ticks_add (n m : nat) (s : state) :
  run (repeat Tick (n + m)) s = run (repeat Tick m) (run (repeat Tick n) s).
Proof. rewrite repeat_app. apply run_app. Qed.

Lemma called_app (a b : list tevent) : called (a ++ b) = called a ++ called b.
Proof. unfold called. apply flat_map_app. Qed.

(** A step only adds observations. *)
Lemma act_extends_trace (a : action MYFLT) (s : state) :
  exists evs, trace (act a s) = trace s ++ evs.
Proof.
  destruct a as [|e]; simpl.
  - unfold performanceThreadRoutine_step.
    destruct (performance_thread s) as [t|];
      [|exists []; now rewrite app_nil_r].
    destruct (at_pc t).
    + destruct (is_running s =? 0); exists []; simpl; now rewrite app_nil_r.
    + destruct (loop_condition s t); exists []; simpl; now rewrite app_nil_r.
    + destruct (csound_event_queue s) as [|e q].
      * exists []; simpl; now rewrite app_nil_r.
      * destruct (call e (csound s) (world s)). simpl. eauto.
    + destruct (csoundPerformKsmps (csound s) (world s)). simpl. eauto.
    + destruct (csoundCleanup (csound s) (world s)). simpl. eauto.
    + simpl; eauto.
    + destruct (csound_event_queue s) as [|e q]; simpl; eauto.
      exists []; now rewrite app_nil_r.
    + exists []; now rewrite app_nil_r.
  - exists []. simpl. now rewrite app_nil_r.
Qed.

Lemma run_extends_trace (sched : list (action MYFLT)) :
  forall s : state, exists evs, trace (run sched s) = trace s ++ evs.
Proof.
  induction sched as [|a rest IH]; intros s; simpl.
  - exists []. now rewrite app_nil_r.
  - destruct (IH (act a s)) as [evs Hevs].
    destruct (act_extends_trace a s) as [evs0 H0].
    exists (evs0 ++ evs). now rewrite Hevs, H0, app_assoc.
Qed.

(** *** The drain of one iteration *)

(** With nobody enqueuing, as many steps as there are queued events call
    and free them all, first to last. *)
Lemma drain_ticks (q : list tevent) :
  forall (p : CSOUND_ptr) (ir : Z) (t : Thread) (w : World)
         (tr : list (event MYFLT)),
    at_pc t = AtPop ->
    run (repeat Tick (List.length q))
        {| csound := p; is_running := ir; csound_event_queue := q;
           performance_thread := Some t; world := w; trace := tr |}
    = {| csound := p; is_running := ir; csound_event_queue := [];
         performance_thread := Some t; world := apply_all p q w;
         trace := tr ++ called q |}.
Proof.
  induction q as [|e q IH]; intros p ir t w tr Hpc.
  - simpl. now rewrite app_nil_r.
  - cbn [List.length repeat run act].
    unfold performanceThreadRoutine_step at 1. fields. rewrite Hpc.
    destruct (call e p w) as [r w'] eqn:Hcall. setters.
    rewrite (IH p ir t w' _ Hpc). f_equal.
    + unfold apply_all. simpl. now rewrite Hcall.
    + simpl. now rewrite <- app_assoc.
Qed.

(** Once the thread stands in front of the render, the next observation,
    if any, is the render. *)
Lemma render_comes_next (sched : list (action MYFLT)) :
  forall (s : state) (t : Thread),
    performance_thread s = Some t ->
    at_pc t = AtPerformKsmps ->
    trace (run sched s) = trace s
    \/ exists post, trace (run sched s) = trace s ++ EvPerformKsmps :: post.
Proof.
  induction sched as [|a rest IH]; intros s t Ht Hpc; [now left|].
  destruct a as [|e]; simpl.
  - right.
    destruct (run_extends_trace rest (performanceThreadRoutine_step s))
      as [evs Hevs].
    exists evs. rewrite Hevs.
    unfold performanceThreadRoutine_step. rewrite Ht, Hpc.
    destruct (csoundPerformKsmps (csound s) (world s)). simpl.
    now rewrite <- app_assoc.
  - apply (IH (push e s) t); assumption.
Qed.

(** Under every schedule, a drain that has begun is observed either
    still without a render, or with the calls of everything that was
    queued when it began in front of the first render. *)
Lemma drain_then_render (sched : list (action MYFLT)) :
  forall (s : state) (t : Thread),
    performance_thread s = Some t ->
    at_pc t = AtPop ->
    (exists applied, trace (run sched s) = trace s ++ called applied)
    \/ (exists extra post,
          trace (run sched s)
          = trace s ++ called (csound_event_queue s ++ extra)
                    ++ EvPerformKsmps :: post).
Proof.
  induction sched as [|a rest IH]; intros s t Ht Hpc.
  - left. exists []. simpl. now rewrite app_nil_r.
  - destruct a as [|e]; simpl.
    + destruct (csound_event_queue s) as [|e q] eqn:Hq.
      * assert (Hstep : performanceThreadRoutine_step s
                        = set_thread (Some (goto AtPerformKsmps t)) s).
        { unfold performanceThreadRoutine_step. now rewrite Ht, Hpc, Hq. }
        rewrite Hstep.
        destruct (render_comes_next rest
                    (set_thread (Some (goto AtPerformKsmps t)) s)
                    (goto AtPerformKsmps t) eq_refl eq_refl) as [H|[post H]].
        -- left. exists []. rewrite H. simpl. now rewrite app_nil_r.
        -- right. exists [], post. rewrite H. reflexivity.
      * destruct (call e (csound s) (world s)) as [r w'] eqn:Hcall.
        assert (Hstep : performanceThreadRoutine_step s
                        = observe [EvCall e; EvDelete e]
                            (set_world w' (set_queue q s))).
        { unfold performanceThreadRoutine_step.
          now rewrite Ht, Hpc, Hq, Hcall. }
        rewrite Hstep.
        destruct (IH (observe [EvCall e; EvDelete e]
                        (set_world w' (set_queue q s))) t Ht Hpc)
          as [[applied H]|[extra [post H]]].
        -- left. exists (e :: applied). rewrite H. simpl.
           now rewrite <- app_assoc.
        -- right. exists extra, post. rewrite H. simpl.
           now rewrite <- app_assoc.
    + destruct (IH (push e s) t Ht Hpc) as [[applied H]|[extra [post H]]].
      * left. exists applied. exact H.
      * right. exists (e :: extra), post. rewrite H. simpl.
        now rewrite <- app_assoc.
Qed.

(** With nobody enqueuing, one iteration from its first pop: every queued
    event called and freed, then one block rendered. *)
Lemma iteration_ticks (s : state) (t : Thread) :
  performance_thread s = Some t ->
  at_pc t = AtPop ->
  let q := csound_event_queue s in
  let w1 := apply_all (csound s) q (world s) in
  run (repeat Tick (List.length q + 2)) s
  = {| csound := csound s; is_running := is_running s;
       csound_event_queue := [];
       performance_thread :=
         Some {| at_pc := AtLoopTest;
                 is_finished := fst (csoundPerformKsmps (csound s) w1);
                 result := result t |};
       world := snd (csoundPerformKsmps (csound s) w1);
       trace := trace s ++ called q ++ [EvPerformKsmps] |}.
Proof.
  intros Ht Hpc.
  destruct s as [p ir q th w tr]. cbn [performance_thread] in Ht.
  subst th. fields.
  rewrite ticks_add, (drain_ticks q p ir t w tr Hpc).
  cbn [repeat run act]. unfold performanceThreadRoutine_step. fields.
  rewrite Hpc. setters.
  destruct (csoundPerformKsmps p (apply_all p q w)) as [r w2]. setters.
  cbn [fst snd]. now rewrite <- app_assoc.
Qed.

(** C3. From the point where an iteration starts popping, with the
    thread alone: after as many steps as there are queued events plus
    two, every queued event has been called on the engine in queue order
    and freed, then exactly one block has been rendered, the queue is
    empty and the thread is back at the loop test. With other threads
    enqueuing under any schedule: the observations are either calls only
    (no render yet), or the calls of all events that were queued at the
    start, in order, then those of later arrivals, then the render. *)
Theorem drain_completely_then_render_one_block (s : state) (t : Thread) :
  performance_thread s = Some t ->
  at_pc t = AtPop ->
  (let q := csound_event_queue s in
   let w1 := apply_all (csound s) q (world s) in
   run (repeat Tick (List.length q + 2)) s
   = {| csound := csound s; is_running := is_running s;
        csound_event_queue := [];
        performance_thread :=
          Some {| at_pc := AtLoopTest;
                  is_finished := fst (csoundPerformKsmps (csound s) w1);
                  result := result t |};
        world := snd (csoundPerformKsmps (csound s) w1);
        trace := trace s ++ called q ++ [EvPerformKsmps] |})
  /\ forall sched,
       (exists applied, trace (run sched s) = trace s ++ called applied)
       \/ (exists extra post,
             trace (run sched s)
             = trace s ++ called (csound_event_queue s ++ extra)
                       ++ EvPerformKsmps :: post).
Proof.
  intros Ht Hpc. split.
  - exact (iteration_ticks s t Ht Hpc).
  - intros sched. exact (drain_then_render sched s t Ht Hpc).
Qed.

(** *** Leaving the loop *)

(** A thread that has returned does nothing more; the queue only grows
    by what is enqueued. *)
Lemma run_after_return (sched : list (action MYFLT)) :
  forall s : state,
    thread_returned s = true ->
    run sched s = set_queue (csound_event_queue s ++ pushed sched) s.
Proof.
  induction sched as [|a rest IH]; intros s Hret.
  - simpl. rewrite app_nil_r. now destruct s.
  - unfold thread_returned in Hret.
    destruct (performance_thread s) as [t|] eqn:Ht; [|discriminate].
    unfold has_returned in Hret.
    destruct (at_pc t) as [| | | | | | |r] eqn:Hpc; try discriminate.
    destruct a as [|e]; simpl.
    + assert (Hstep : performanceThreadRoutine_step s = s).
      { unfold performanceThreadRoutine_step. now rewrite Ht, Hpc. }
      rewrite Hstep. apply IH. unfold thread_returned, has_returned.
      now rewrite Ht, Hpc.
    + rewrite IH.
      * destruct s. setters. now rewrite <- app_assoc.
      * unfold thread_returned, has_returned. setters. now rewrite Ht, Hpc.
Qed.

(** Applies a lemma on schedules to the state a step has led to. *)
Ltac after_step lem rest Hret :=
  match type of Hret with
  | thread_returned (run _ ?s1) = true =>
      constr:(lem rest s1 _ eq_refl eq_refl Hret)
  end.

Lemma final_drain_any_schedule (sched : list (action MYFLT)) :
  forall (s : state) (t : Thread),
    performance_thread s = Some t ->
    at_pc t = AtFinalPop ->
    thread_returned (run sched s) = true ->
    exists ds,
      trace (run sched s) = trace s ++ map EvDelete ds
      /\ csound_event_queue s ++ pushed sched
         = ds ++ csound_event_queue (run sched s)
      /\ world (run sched s) = world s.
Proof.
  induction sched as [|a rest IH]; intros s t Ht Hpc Hret.
  - simpl in Hret. unfold thread_returned, has_returned in Hret.
    rewrite Ht, Hpc in Hret. discriminate.
  - destruct a as [|e]; simpl in *.
    + destruct (csound_event_queue s) as [|e q] eqn:Hq.
      * assert (Hstep : performanceThreadRoutine_step s
                        = set_thread (Some (goto (Returned (result t)) t)) s).
        { unfold performanceThreadRoutine_step. now rewrite Ht, Hpc, Hq. }
        rewrite Hstep in *.
        rewrite run_after_return by reflexivity.
        exists []. setters. rewrite Hq, app_nil_r. auto.
      * assert (Hstep : performanceThreadRoutine_step s
                        = observe [EvDelete e] (set_queue q s)).
        { unfold performanceThreadRoutine_step. now rewrite Ht, Hpc, Hq. }
        rewrite Hstep in *.
        destruct (IH (observe [EvDelete e] (set_queue q s)) t Ht Hpc Hret)
          as (ds & Htr & Hqs & Hw).
        exists (e :: ds). rewrite Htr, Hw. setters.
        simpl in Hqs. simpl. rewrite Hqs, <- app_assoc. auto.
    + destruct (IH (push e s) t Ht Hpc Hret) as (ds & Htr & Hqs & Hw).
      exists ds. rewrite Htr, Hw, <- Hqs. setters.
      rewrite <- app_assoc. auto.
Qed.

Lemma reset_any_schedule (sched : list (action MYFLT)) :
  forall (s : state) (t : Thread),
    performance_thread s = Some t ->
    at_pc t = AtReset ->
    thread_returned (run sched s) = true ->
    exists ds,
      trace (run sched s) = trace s ++ EvReset :: map EvDelete ds
      /\ csound_event_queue s ++ pushed sched
         = ds ++ csound_event_queue (run sched s)
      /\ world (run sched s) = csoundReset (csound s) (world s).
Proof.
  induction sched as [|a rest IH]; intros s t Ht Hpc Hret.
  - simpl in Hret. unfold thread_returned, has_returned in Hret.
    rewrite Ht, Hpc in Hret. discriminate.
  - destruct a as [|e]; simpl in *.
    + assert (Hstep : performanceThreadRoutine_step s
                      = observe [EvReset]
                          (set_world (csoundReset (csound s) (world s))
                             (set_thread (Some (goto AtFinalPop t)) s))).
      { unfold performanceThreadRoutine_step. now rewrite Ht, Hpc. }
      rewrite Hstep in *.
      destruct ltac:(let h := after_step final_drain_any_schedule rest Hret in exact h)
        as (ds & Htr & Hqs & Hw).
      exists ds. rewrite Htr, Hw, <- Hqs. setters.
      rewrite <- app_assoc. auto.
    + destruct (IH (push e s) t Ht Hpc Hret) as (ds & Htr & Hqs & Hw).
      exists ds. rewrite Htr, Hw, <- Hqs. setters.
      rewrite <- app_assoc. auto.
Qed.

Lemma cleanup_any_schedule (sched : list (action MYFLT)) :
  forall (s : state) (t : Thread),
    performance_thread s = Some t ->
    at_pc t = AtCleanup ->
    thread_returned (run sched s) = true ->
    exists ds,
      trace (run sched s)
      = trace s ++ EvCleanup :: EvReset :: map EvDelete ds
      /\ csound_event_queue s ++ pushed sched
         = ds ++ csound_event_queue (run sched s)
      /\ world (run sched s)
         = csoundReset (csound s) (snd (csoundCleanup (csound s) (world s))).
Proof.
  induction sched as [|a rest IH]; intros s t Ht Hpc Hret.
  - simpl in Hret. unfold thread_returned, has_returned in Hret.
    rewrite Ht, Hpc in Hret. discriminate.
  - destruct a as [|e]; simpl in *.
    + destruct (csoundCleanup (csound s) (world s)) as [r w1] eqn:Hc.
      assert (Hstep : performanceThreadRoutine_step s
                      = observe [EvCleanup]
                          (set_world w1
                             (set_thread
                                (Some {| at_pc := AtReset;
                                         is_finished := is_finished t;
                                         result := r |}) s))).
      { unfold performanceThreadRoutine_step. now rewrite Ht, Hpc, Hc. }
      rewrite Hstep in *.
      destruct ltac:(let h := after_step reset_any_schedule rest Hret in exact h)
        as (ds & Htr & Hqs & Hw).
      exists ds. rewrite Htr, Hw, <- Hqs. setters.
      rewrite <- app_assoc. auto.
    + destruct (IH (push e s) t Ht Hpc Hret) as (ds & Htr & Hqs & Hw).
      exists ds. rewrite Htr, Hw, <- Hqs. setters.
      rewrite <- app_assoc. auto.
Qed.

Lemma loop_exit_any_schedule (sched : list (action MYFLT)) :
  forall (s : state) (t : Thread),
    performance_thread s = Some t ->
    at_pc t = AtLoopTest ->
    loop_condition s t = false ->
    thread_returned (run sched s) = true ->
    exists ds,
      trace (run sched s)
      = trace s ++ EvCleanup :: EvReset :: map EvDelete ds
      /\ csound_event_queue s ++ pushed sched
         = ds ++ csound_event_queue (run sched s)
      /\ world (run sched s)
         = csoundReset (csound s) (snd (csoundCleanup (csound s) (world s))).
Proof.
  induction sched as [|a rest IH]; intros s t Ht Hpc Hcond Hret.
  - simpl in Hret. unfold thread_returned, has_returned in Hret.
    rewrite Ht, Hpc in Hret. discriminate.
  - destruct a as [|e]; simpl in *.
    + assert (Hstep : performanceThreadRoutine_step s
                      = set_thread (Some (goto AtCleanup t)) s).
      { unfold performanceThreadRoutine_step. now rewrite Ht, Hpc, Hcond. }
      rewrite Hstep in *.
      let h := after_step cleanup_any_schedule rest Hret in exact h.
    + destruct (IH (push e s) t Ht Hpc Hcond Hret) as (ds & Htr & Hqs & Hw).
      exists ds. rewrite Htr, Hw, <- Hqs. setters.
      rewrite <- app_assoc. auto.
Qed.

(** With nobody enqueuing, the final drain frees every queued event. *)
Lemma final_drain_ticks (q : list tevent) :
  forall (p : CSOUND_ptr) (ir : Z) (t : Thread) (w : World)
         (tr : list (event MYFLT)),
    at_pc t = AtFinalPop ->
    run (repeat Tick (List.length q))
        {| csound := p; is_running := ir; csound_event_queue := q;
           performance_thread := Some t; world := w; trace := tr |}
    = {| csound := p; is_running := ir; csound_event_queue := [];
         performance_thread := Some t; world := w;
         trace := tr ++ map EvDelete q |}.
Proof.
  induction q as [|e q IH]; intros p ir t w tr Hpc.
  - simpl. now rewrite app_nil_r.
  - cbn [List.length repeat run act].
    unfold performanceThreadRoutine_step at 1. fields. rewrite Hpc.
    setters. rewrite (IH p ir t w _ Hpc). f_equal.
    simpl. now rewrite <- app_assoc.
Qed.

(** The thread never goes back to the routine's entry. *)
Lemma act_leaves_entry (a : action MYFLT) (s : state) (t' : Thread) :
  performance_thread (act a s) = Some t' ->
  at_pc t' = AtEntry ->
  exists t, performance_thread s = Some t /\ at_pc t = AtEntry.
Proof.
  destruct a as [|e]; simpl; [|eauto].
  unfold performanceThreadRoutine_step.
  destruct (performance_thread s) as [t|] eqn:Ht;
    [|intros H; rewrite Ht in H; discriminate].
  destruct (at_pc t) eqn:Hpc.
  - eauto.
  - destruct (loop_condition s t); setters; intros [= <-]; discriminate.
  - destruct (csound_event_queue s) as [|e q].
    + setters; intros [= <-]; discriminate.
    + destruct (call e (csound s) (world s)). setters.
      rewrite Ht. intros [= <-]. congruence.
  - destruct (csoundPerformKsmps (csound s) (world s)). setters.
    intros [= <-]; discriminate.
  - destruct (csoundCleanup (csound s) (world s)). setters.
    intros [= <-]; discriminate.
  - setters; intros [= <-]; discriminate.
  - destruct (csound_event_queue s) as [|e q]; setters.
    + intros [= <-]; discriminate.
    + rewrite Ht. intros [= <-]. congruence.
  - rewrite Ht. intros [= <-]. congruence.
Qed.

Lemma run_leaves_entry (sched : list (action MYFLT)) :
  forall (s : state) (t' : Thread),
    performance_thread (run sched s) = Some t' ->
    at_pc t' = AtEntry ->
    exists t, performance_thread s = Some t /\ at_pc t = AtEntry.
Proof.
  induction sched as [|a rest IH]; intros s t' Ht' Hpc'; simpl in *;
    [eauto|].
  destruct (IH _ _ Ht' Hpc') as (t1 & Ht1 & Hpc1).
  exact (act_leaves_entry a s t1 Ht1 Hpc1).
Qed.

(** Past the entry, the step on which the thread returns finds the queue
    empty. *)
Lemma returning_step_finds_queue_empty (s : state) (t : Thread) :
  performance_thread s = Some t ->
  at_pc t <> AtEntry ->
  thread_returned s = false ->
  thread_returned (performanceThreadRoutine_step s) = true ->
  csound_event_queue (performanceThreadRoutine_step s) = [].
Proof.
  intros Ht Hpc Hnot. unfold thread_returned in *.
  unfold performanceThreadRoutine_step. rewrite Ht in *.
  unfold has_returned in *.
  destruct (at_pc t) eqn:Hat; try congruence.
  - destruct (loop_condition s t); setters; discriminate.
  - destruct (csound_event_queue s) as [|e q]; setters; [discriminate|].
    destruct (call e (csound s) (world s)). setters.
    rewrite Ht, Hat. discriminate.
  - destruct (csoundPerformKsmps (csound s) (world s)). setters.
    discriminate.
  - destruct (csoundCleanup (csound s) (world s)). setters. discriminate.
  - setters. discriminate.
  - destruct (csound_event_queue s) as [|e q] eqn:Hq; setters; [auto|].
    rewrite Ht, Hat. discriminate.
Qed.

(** C4. When the loop test fails (the running flag is not [1] or the
    engine reported the end), with the thread alone: after as many steps
    as there are queued events plus four, the engine has been cleaned up,
    then reset, then every queued event freed without being called, the
    queue is empty and the routine has returned the cleanup's result.
    With other threads enqueuing under any schedule: once the routine
    has returned, the observations since the test are the cleanup, the
    reset and frees only, the engine's world is the reset of the cleanup
    of the world at the test, and every event queued or enqueued is
    either among the freed ones or still in the queue; the step on which
    the routine returns leaves the queue empty. *)
Theorem loop_exit_cleanup_reset_discard (s : state) (t : Thread) :
  performance_thread s = Some t ->
  at_pc t = AtLoopTest ->
  loop_condition s t = false ->
  (let q := csound_event_queue s in
   let c := csoundCleanup (csound s) (world s) in
   run (repeat Tick (List.length q + 4)) s
   = {| csound := csound s; is_running := is_running s;
        csound_event_queue := [];
        performance_thread :=
          Some {| at_pc := Returned (fst c);
                  is_finished := is_finished t;
                  result := fst c |};
        world := csoundReset (csound s) (snd c);
        trace := trace s ++ [EvCleanup; EvReset] ++ map EvDelete q |})
  /\ (forall sched,
        thread_returned (run sched s) = true ->
        exists ds,
          trace (run sched s)
          = trace s ++ [EvCleanup; EvReset] ++ map EvDelete ds
          /\ csound_event_queue s ++ pushed sched
             = ds ++ csound_event_queue (run sched s)
          /\ world (run sched s)
             = csoundReset (csound s)
                 (snd (csoundCleanup (csound s) (world s))))
  /\ (forall sched,
        thread_returned (run sched s) = false ->
        thread_returned (run (sched ++ [Tick]) s) = true ->
        csound_event_queue (run (sched ++ [Tick]) s) = []).
Proof.
  intros Ht Hpc Hcond. split; [|split].
  - destruct s as [p ir q th w tr]. cbn [performance_thread] in Ht.
    subst th. fields.
    replace (List.length q + 4)%nat with (3 + (List.length q + 1))%nat by lia.
    rewrite ticks_add. cbn [repeat run act].
    unfold performanceThreadRoutine_step at 3. fields.
    rewrite Hpc, Hcond. setters.
    unfold performanceThreadRoutine_step at 2. fields.
    destruct (csoundCleanup p w) as [r w1]. setters.
    unfold performanceThreadRoutine_step at 1. fields. setters.
    rewrite ticks_add, final_drain_ticks by reflexivity.
    cbn [repeat run act]. unfold performanceThreadRoutine_step. fields.
    setters. cbn [fst snd]. f_equal.
    rewrite <- !app_assoc. reflexivity.
  - intros sched Hret.
    exact (loop_exit_any_schedule sched s t Ht Hpc Hcond Hret).
  - intros sched Hnot Hret. rewrite run_app in *. cbn [run act] in *.
    destruct (performance_thread (run sched s)) as [t1|] eqn:Ht1.
    + apply (returning_step_finds_queue_empty _ t1 Ht1); [|assumption..].
      intros Hentry.
      destruct (run_leaves_entry sched s t1 Ht1 Hentry) as (t0 & Ht0 & Hpc0).
      congruence.
    + unfold performanceThreadRoutine_step, thread_returned in Hret.
      rewrite Ht1 in Hret. rewrite Ht1 in Hret. discriminate.
Qed.

End Runs.

(** *** The value a command returns *)

Section Status.
Context {MYFLT World : Type} {E : Engine MYFLT World}.

Local Abbreviation state := (CSound MYFLT World).
Local Abbreviation tevent := (CsoundThreadEvent MYFLT).

Lemma call_with_status (se : CSOUND_ptr -> ascii -> list MYFLT -> Z -> World -> Z)
    (rs : CSOUND_ptr -> string -> World -> Z)
    (e : tevent) (p : CSOUND_ptr) (w : World) :
  snd (call (E := with_status E se rs) e p w) = snd (call (E := E) e p w).
Proof. destruct e; reflexivity. Qed.

Lemma step_with_status (se : CSOUND_ptr -> ascii -> list MYFLT -> Z -> World -> Z)
    (rs : CSOUND_ptr -> string -> World -> Z) (s : state) :
  performanceThreadRoutine_step (E := with_status E se rs) s
  = performanceThreadRoutine_step (E := E) s.
Proof.
  unfold performanceThreadRoutine_step.
  destruct (performance_thread s) as [t|]; [|reflexivity].
  destruct (at_pc t); try reflexivity.
  destruct (csound_event_queue s) as [|e q]; [reflexivity|].
  pose proof (call_with_status se rs e (csound s) (world s)) as H.
  destruct (call (E := with_status E se rs) e (csound s) (world s)).
  destruct (call (E := E) e (csound s) (world s)).
  simpl in H. now subst.
Qed.

Lemma run_with_status (se : CSOUND_ptr -> ascii -> list MYFLT -> Z -> World -> Z)
    (rs : CSOUND_ptr -> string -> World -> Z) (sched : list (action MYFLT)) :
  forall s : state,
    run (E := with_status E se rs) sched s = run (E := E) sched s.
Proof.
  induction sched as [|a rest IH]; intros s; [reflexivity|].
  simpl. rewrite IH. destruct a; simpl; [|reflexivity].
  now rewrite step_with_status.
Qed.

(** C7. When the thread pops an event, whatever value the event's call
    on the engine returns: the thread stays in the drain with the same
    locals, the running flag is unchanged and the event leaves the
    queue; nobody enqueuing, after the remaining pops a block is
    rendered and the thread is back at the loop test; and under every
    schedule the whole run is the one obtained had the calls returned
    any other values. *)
Theorem command_result_is_ignored (s : state) (t : Thread) (e : tevent)
    (q : list tevent) :
  performance_thread s = Some t ->
  at_pc t = AtPop ->
  csound_event_queue s = e :: q ->
  forall (se : CSOUND_ptr -> ascii -> list MYFLT -> Z -> World -> Z)
         (rs : CSOUND_ptr -> string -> World -> Z),
    let E' := with_status E se rs in
    performance_thread (performanceThreadRoutine_step (E := E') s) = Some t
    /\ is_running (performanceThreadRoutine_step (E := E') s) = is_running s
    /\ csound_event_queue (performanceThreadRoutine_step (E := E') s) = q
    /\ (exists t',
          performance_thread
            (run (E := E') (repeat Tick (List.length (e :: q) + 2)) s)
          = Some t'
          /\ at_pc t' = AtLoopTest
          /\ trace (run (E := E') (repeat Tick (List.length (e :: q) + 2)) s)
             = trace s ++ called (e :: q) ++ [EvPerformKsmps])
    /\ forall sched, run (E := E') sched s = run (E := E) sched s.
Proof.
  intros Ht Hpc Hq se rs E'.
  assert (Hstep : performanceThreadRoutine_step (E := E') s
                  = observe [EvCall e; EvDelete e]
                      (set_world (snd (call (E := E') e (csound s) (world s)))
                         (set_queue q s))).
  { unfold performanceThreadRoutine_step. rewrite Ht, Hpc, Hq.
    now destruct (call e (csound s) (world s)). }
  rewrite Hstep. setters. repeat split; try assumption.
  - pose proof (iteration_ticks (E := E') s t Ht Hpc) as Hit.
    cbv zeta in Hit. rewrite Hq in Hit. rewrite Hit. fields.
    eexists. repeat split.
  - intros sched. apply run_with_status.
Qed.

End Status.

(** *** The running flag and the return of the thread *)

Section Stopping.
Context {MYFLT World : Type} {E : Engine MYFLT World}.

Local Abbreviation state := (CSound MYFLT World).
Local Abbreviation tevent := (CsoundThreadEvent MYFLT).


(** Past the entry, nothing the thread or an enqueuing thread does
    writes the running flag. *)
Lemma act_keeps_flag (a : action MYFLT) (s : state) :
  at_entry s = false ->
  is_running (act a s) = is_running s /\ at_entry (act a s) = false.
Proof.
  unfold at_entry. destruct a as [|e]; simpl; [|auto].
  unfold performanceThreadRoutine_step.
  destruct (performance_thread s) as [t|] eqn:Ht;
    [|rewrite Ht; auto].
  destruct (at_pc t) eqn:Hpc; try discriminate; intros _.
  - destruct (loop_condition s t); setters; auto.
  - destruct (csound_event_queue s) as [|e q]; [setters; auto|].
    destruct (call e (csound s) (world s)). setters.
    now rewrite Ht, Hpc.
  - destruct (csoundPerformKsmps (csound s) (world s)). setters. auto.
  - destruct (csoundCleanup (csound s) (world s)). setters. auto.
  - setters. auto.
  - destruct (csound_event_queue s) as [|e q]; setters; auto.
    now rewrite Ht, Hpc.
  - now rewrite Ht, Hpc.
Qed.

Lemma run_keeps_flag (sched : list (action MYFLT)) :
  forall s : state,
    at_entry s = false ->
    is_running (run sched s) = is_running s
    /\ at_entry (run sched s) = false.
Proof.
  induction sched as [|a rest IH]; intros s Hs; simpl; [auto|].
  destruct (act_keeps_flag a s Hs) as [Hflag Hentry].
  destruct (IH _ Hentry) as [Hflag' Hentry'].
  split; [congruence|assumption].
Qed.



(** *** [stop] *)

(** What a returned [stop] has done. *)
Lemma stop_inversion (sched : list (action MYFLT)) (s s' : state) (r : Z) :
  stop sched s = Some (r, s') ->
  r = is_running s
  /\ performance_thread s' = None
  /\ match performance_thread s with
     | None => s' = set_is_running 0 s
     | Some _ =>
         thread_returned (run sched (set_is_running 0 s)) = true
         /\ s' = observe [EvJoin]
                   (set_thread None (run sched (set_is_running 0 s)))
     end.
Proof.
  unfold stop.
  change (performance_thread (set_is_running 0 s))
    with (performance_thread s).
  destruct (performance_thread s) as [t|] eqn:Ht.
  - unfold thread_returned.
    destruct (performance_thread (run sched (set_is_running 0 s)))
      as [t1|]; [|discriminate].
    destruct (has_returned t1); [|discriminate].
    intros [= <- <-]. auto.
  - intros [= <- <-]. setters. auto.
Qed.

(** In every state where the running flag is [0] and no thread is held,
    as after construction, under every schedule [stop] returns [0] at
    once and leaves the whole state as it was: no join, no engine call,
    the queue untouched. *)
Lemma stop_when_not_running (sched : list (action MYFLT)) (s : state) :
  is_running s = 0 ->
  performance_thread s = None ->
  stop sched s = Some (0, s).
Proof.
  intros Hflag Ht. unfold stop.
  change (performance_thread (set_is_running 0 s))
    with (performance_thread s).
  rewrite Ht, Hflag. destruct s. cbn in *. now subst.
Qed.



(** After a [stop] that has returned, [perform] returns at once, and the
    thread it makes passes the entry test on its first step. *)
Lemma perform_after_stop (sched sched' : list (action MYFLT)) (s s' : state)
    (r : Z) :
  stop sched s = Some (r, s') ->
  exists s'',
    perform sched' s' = Some (Some new_thread, s'')
    /\ performance_thread s'' = Some new_thread
    /\ performance_thread (performanceThreadRoutine_step s'')
       = Some {| at_pc := AtLoopTest; is_finished := 0; result := 0 |}
    /\ is_running (performanceThreadRoutine_step s'') = 1.
Proof.
  intros Hstop.
  destruct (stop_inversion sched s s' r Hstop) as (_ & Hnone & _).
  unfold perform, stop.
  change (performance_thread (set_is_running 0 s'))
    with (performance_thread s').
  rewrite Hnone.
  eexists. split; [reflexivity|]. setters. repeat split.
Qed.

(** *** [perform] *)


(** *** [destroy] *)


End Stopping.

(** ** The controller on the stub engine *)

Lemma drain_completely_then_render_one_block_witness :
  run (E := Stub2) (repeat Tick 4) draining
  = {| csound := 1; is_running := 1; csound_event_queue := [];
       performance_thread :=
         Some {| at_pc := AtLoopTest; is_finished := 1; result := 0 |};
       world := [CallPerformKsmps; CallReadScore "i 1 0";
                 CallScoreEvent "i" [] 0; CallPerformKsmps];
       trace := [EvSpawn; EvPerformKsmps]
                ++ called [bad_score; note] ++ [EvPerformKsmps] |}.
Proof.
  exact (proj1 (drain_completely_then_render_one_block (E := Stub2) draining
                  {| at_pc := AtPop; is_finished := 0; result := 0 |}
                  eq_refl eq_refl)).
Defined.

Lemma loop_exit_cleanup_reset_discard_witness :
  run (E := Stub2) (repeat Tick 6)
      (push note (push bad_score (set_is_running 0 performing)))
  = {| csound := 1; is_running := 0; csound_event_queue := [];
       performance_thread :=
         Some {| at_pc := Returned 0; is_finished := 0; result := 0 |};
       world := [CallPerformKsmps; CallCleanup; CallReset];
       trace := [EvSpawn; EvPerformKsmps]
                ++ [EvCleanup; EvReset]
                ++ [EvDelete bad_score; EvDelete note] |}.
Proof.
  exact (proj1 (loop_exit_cleanup_reset_discard (E := Stub2)
                  (push note (push bad_score (set_is_running 0 performing)))
                  {| at_pc := AtLoopTest; is_finished := 0; result := 0 |}
                  eq_refl eq_refl eq_refl)).
Defined.

Lemma command_result_is_ignored_witness :
  run (E := with_status Stub2 (fun _ _ _ _ _ => -1) (fun _ _ _ => -1))
      [Tick; Push note; Tick; Tick; Tick; Tick] draining
  = run (E := Stub2) [Tick; Push note; Tick; Tick; Tick; Tick] draining.
Proof.
  exact (proj2 (proj2 (proj2 (proj2
           (command_result_is_ignored (E := Stub2) draining
              {| at_pc := AtPop; is_finished := 0; result := 0 |}
              bad_score [note] eq_refl eq_refl eq_refl
              (fun _ _ _ _ _ => -1) (fun _ _ _ => -1)))))
           [Tick; Push note; Tick; Tick; Tick; Tick]).
Defined.

Lemma stop_when_not_running_witness :
  stop (E := Stub2) [Push note; Tick] ready = Some (0, ready).
Proof.
  exact (stop_when_not_running (E := Stub2) [Push note; Tick] ready
           eq_refl eq_refl).
Defined.

(** C6, on the stub whose performance ends with its second block:
    [perform] and then [stop] before the new thread has run. [stop]
    stores [0]; the thread then passes its entry test and stores [1],
    performs until the engine reports the end and returns; [stop]
    returns [0] with the thread pointer null and the running flag [1].
    [isPerforming] then answers true with no thread left, and the next
    [stop] answers [1]. *)
Theorem stop_before_thread_entry_leaves_flag_set :
  at_entry spawned = true
  /\ exists s',
       stop (E := Stub2) (repeat Tick 11) spawned = Some (0, s')
       /\ performance_thread s' = None
       /\ is_running s' = 1
       /\ isPerforming s' = true
       /\ option_map fst (stop (E := Stub2) [] s') = Some 1.
Proof.
  split; [reflexivity|]. eexists. split; [vm_compute; reflexivity|].
  repeat split.
Qed.

(** C5, on the stub whose performance ends with its second block, in
    the state the [stop] of C6 leaves: that [stop] has returned, no
    thread is held and nothing performs, so the controller is already
    stopped. A further [stop] does not answer "was not running": it
    returns [1], and it stores the running flag, so the state is not
    left as it was. *)
Theorem stop_after_missed_stop_reports_running :
  exists s',
    stop (E := Stub2) (repeat Tick 11) spawned = Some (0, s')
    /\ performance_thread s' = None
    /\ thread_returned s' = false
    /\ stop (E := Stub2) [] s' = Some (1, set_is_running 0 s')
    /\ set_is_running 0 s' <> s'.
Proof.
  eexists. split; [vm_compute; reflexivity|].
  repeat split. intros H. apply (f_equal is_running) in H. discriminate.
Qed.





Example destroy_while_performing :
  option_map (fun s => (trace s, world s))
             (destroy (E := Stub2) (repeat Tick 4) performing)
  = Some ([EvSpawn; EvPerformKsmps; EvCleanup; EvReset; EvJoin; EvDestroy],
          [CallPerformKsmps; CallCleanup; CallReset; CallDestroy]).
Proof. reflexivity. Qed.

(** The events of the stub runs are those the controller's own methods
    enqueue. *)
Example stub_events_are_enqueued_by_the_methods :
  scoreEvent 1 "i"%char [1%float; 0%float; 1%float] 0
             (readScore "i 1 0" performing)
  = Ok (push note (push bad_score performing)).
Proof. reflexivity. Qed.

(* ==================================================================== *)
(** * Further properties *)

(** ** The words [ArgParser] finds *)

Lemma split_ws_skips_delimiters (l : list ascii) :
  split_ws [] l = split_ws [] (skipn (strspn l) l).
Proof.
  induction l as [|c r IH]; simpl; [reflexivity|].
  destruct (is_delim c) eqn:Hc; simpl; [exact IH|now rewrite Hc].
Qed.

Lemma split_ws_run (l : list ascii) :
  forall cur,
    cur <> [] ->
    Forall (fun c => is_nul c = false) l ->
    split_ws cur l
    = (rev cur ++ firstn (strcspn l) l)
        :: split_ws [] (skipn (S (strcspn l)) l).
Proof.
  induction l as [|c r IH]; intros cur Hcur Hnul.
  - simpl. rewrite app_nil_r. destruct cur; [contradiction|reflexivity].
  - inversion Hnul as [|? ? Hc Hr]; subst. simpl. rewrite Hc, orb_false_r.
    destruct (is_delim c) eqn:Hd.
    + simpl. rewrite app_nil_r. destruct cur; [contradiction|reflexivity].
    + rewrite (IH (c :: cur)) by (assumption || discriminate).
      simpl. now rewrite <- app_assoc.
Qed.

Lemma split_ws_word (c : ascii) (r : list ascii) :
  is_delim c = false ->
  Forall (fun c => is_nul c = false) (c :: r) ->
  split_ws [] (c :: r)
  = firstn (strcspn (c :: r)) (c :: r)
      :: split_ws [] (skipn (S (strcspn (c :: r))) (c :: r)).
Proof.
  intros Hd Hnul. inversion Hnul as [|? ? Hc Hr]; subst.
  simpl. rewrite Hd, Hc. simpl.
  now rewrite (split_ws_run r [c]) by (assumption || discriminate).
Qed.

Lemma c_str_no_nul_id (l : list ascii) :
  Forall (fun c => is_nul c = false) l -> c_str l = l.
Proof.
  induction 1 as [|c r Hc Hr IH]; simpl; [reflexivity|].
  now rewrite Hc, IH.
Qed.

Lemma c_str_stops_at_nul (tk rest : list ascii) :
  Forall (fun c => is_nul c = false) tk ->
  c_str (tk ++ NUL :: rest) = tk.
Proof.
  induction 1 as [|c r Hc Hr IH]; simpl; [reflexivity|].
  now rewrite Hc, IH.
Qed.

Lemma Forall_skipn_no_nul (n : nat) (l : list ascii) :
  Forall (fun c => is_nul c = false) l ->
  Forall (fun c => is_nul c = false) (skipn n l).
Proof.
  intros H. rewrite <- (firstn_skipn n l) in H.
  now apply Forall_app in H.
Qed.

Lemma Forall_firstn_no_nul (n : nat) (l : list ascii) :
  Forall (fun c => is_nul c = false) l ->
  Forall (fun c => is_nul c = false) (firstn n l).
Proof.
  intros H. rewrite <- (firstn_skipn n l) in H.
  now apply Forall_app in H.
Qed.

Lemma skipn_poke (m : list ascii) (q : nat) (c : ascii) :
  (q < List.length m)%nat -> skipn (S q) (poke m q c) = skipn (S q) m.
Proof.
  intros H. unfold poke.
  rewrite skipn_app, length_firstn, Nat.min_l by lia.
  rewrite skipn_all2 by (rewrite length_firstn; lia).
  replace (S q - q)%nat with 1%nat by lia. reflexivity.
Qed.

Lemma firstn_poke (m : list ascii) (k q : nat) (c : ascii) :
  (k <= q)%nat -> (q < List.length m)%nat ->
  firstn k (poke m q c) = firstn k m.
Proof.
  intros Hk Hq. unfold poke.
  rewrite firstn_app, length_firstn, Nat.min_l by lia.
  replace (k - q)%nat with 0%nat by lia. simpl. rewrite app_nil_r.
  rewrite firstn_firstn. now rewrite Nat.min_l by lia.
Qed.

Lemma firstn_S_poke (m : list ascii) (q : nat) (c : ascii) :
  (q < List.length m)%nat ->
  firstn (S q) (poke m q c) = firstn q m ++ [c].
Proof.
  intros Hq. unfold poke.
  rewrite firstn_app, length_firstn, Nat.min_l by lia.
  replace (S q - q)%nat with 1%nat by lia.
  rewrite firstn_all2 by (rewrite length_firstn; lia). reflexivity.
Qed.

(** One further call of [strtok] on a block whose part from the saved
    pointer on is still the original text [b]: either no word is left, or
    the next word is found, and its text can be read at the returned
    pointer from any block that agrees with the new one up to the new
    saved pointer. *)
Lemma strtok_next (b m : list ascii) (sv : nat) :
  Forall (fun c => is_nul c = false) b ->
  List.length m = List.length b ->
  skipn sv m = skipn sv b ->
  (sv <= List.length b)%nat ->
  match strtok None {| mem := m; save := sv |} with
  | (None, st1) => mem st1 = m /\ split_ws [] (skipn sv b) = []
  | (Some p, st1) =>
      List.length (mem st1) = List.length b
      /\ skipn (save st1) (mem st1) = skipn (save st1) b
      /\ (sv <= save st1 <= List.length b)%nat
      /\ firstn sv (mem st1) = firstn sv m
      /\ exists tk,
           split_ws [] (skipn sv b) = tk :: split_ws [] (skipn (save st1) b)
           /\ forall mf,
                List.length mf = List.length b ->
                firstn (save st1) mf = firstn (save st1) (mem st1) ->
                cstr_at mf p = tk
  end.
Proof.
  intros Hnul Hlen Hsuf Hsv. unfold strtok. cbn [mem save].
  rewrite Hsuf.
  set (l := skipn sv b).
  set (p := (sv + strspn l)%nat).
  assert (Hpb : skipn p m = skipn p b).
  { unfold p. rewrite (Nat.add_comm sv), <- !skipn_skipn. now rewrite Hsuf. }
  assert (Hpl : skipn p b = skipn (strspn l) l).
  { unfold p, l. now rewrite skipn_skipn, Nat.add_comm. }
  unfold peek. rewrite Hpb.
  pose proof (Forall_skipn_no_nul p b Hnul) as Hnul1.
  pose proof (strspn_stops l) as Hstop. rewrite <- Hpl in Hstop.
  pose proof (length_skipn p b) as Hlen1.
  destruct (skipn p b) as [|c r] eqn:Hl1.
  - cbn. split; [reflexivity|].
    fold l. now rewrite split_ws_skips_delimiters, <- Hpl.
  - inversion Hnul1 as [|? ? Hc Hr]; subst. cbn [hd] in *. rewrite Hc.
    cbn [List.length] in Hlen1.
    set (n := strcspn (c :: r)).
    assert (Hn : (1 <= n <= S (List.length r))%nat).
    { split; [|apply (strcspn_le (c :: r))].
      unfold n. simpl. rewrite Hstop, Hc. simpl. lia. }
    assert (Hq : skipn (p + n) m = skipn n (c :: r)).
    { now rewrite (Nat.add_comm p), <- skipn_skipn, Hpb. }
    assert (Hqb : skipn (p + n) b = skipn n (c :: r)).
    { now rewrite (Nat.add_comm p), <- skipn_skipn, Hl1. }
    assert (Hword : split_ws [] l
                    = firstn n (c :: r) :: split_ws [] (skipn (S n) (c :: r))).
    { rewrite split_ws_skips_delimiters, <- Hpl.
      now apply split_ws_word. }
    rewrite Hq.
    pose proof (Forall_skipn_no_nul n (c :: r) Hnul1) as Hnul2.
    pose proof (length_skipn n (c :: r)) as Hlen2.
    cbn [List.length] in Hlen2.
    destruct (skipn n (c :: r)) as [|d r'] eqn:Hrest.
    + cbn [hd mem save]. cbn [List.length] in Hlen2.
      change (is_nul NUL) with true. cbn iota. cbn [mem save].
      assert (Hend : (p + n = List.length b)%nat) by lia.
      repeat split; try lia.
      * rewrite Hq, Hqb. reflexivity.
      * exists (firstn n (c :: r)). split.
        -- rewrite Hword. f_equal. rewrite Hqb.
           rewrite skipn_all2 by (cbn [List.length]; lia). reflexivity.
        -- intros mf Hmf Hpre.
           rewrite firstn_all2 in Hpre by lia.
           rewrite (firstn_all2 m) in Hpre by lia. subst mf.
           unfold cstr_at. rewrite Hpb.
           rewrite firstn_all2 by (cbn [List.length]; lia).
           now apply c_str_no_nul_id.
    + inversion Hnul2 as [|? ? Hd Hr']; subst. cbn [hd]. rewrite Hd.
      cbn [List.length] in Hlen2. cbn [mem save].
      assert (Hlt : (p + n < List.length m)%nat) by lia.
      repeat split; try lia.
      * rewrite poke_length; assumption.
      * rewrite skipn_poke by assumption.
        change (S (p + n)) with (1 + (p + n))%nat.
        rewrite <- (skipn_skipn 1 (p + n) m), <- (skipn_skipn 1 (p + n) b).
        now rewrite Hq, Hqb.
      * apply firstn_poke; lia.
      * exists (firstn n (c :: r)). split.
        -- rewrite Hword. f_equal.
           change (S (p + n)) with (1 + (p + n))%nat.
           rewrite <- (skipn_skipn 1 (p + n) b), Hqb.
           change (S n) with (1 + n)%nat.
           now rewrite <- (skipn_skipn 1 n (c :: r)), Hrest.
        -- intros mf Hmf Hpre.
           rewrite firstn_S_poke in Hpre by assumption.
           unfold cstr_at.
           rewrite <- (firstn_skipn (S (p + n)) mf), Hpre, <- app_assoc.
           rewrite skipn_app, length_firstn, Nat.min_l by lia.
           replace (p - (p + n))%nat with 0%nat by lia.
           rewrite skipn_firstn_comm, Hpb.
           replace (p + n - p)%nat with n by lia.
           cbn [skipn app].
           apply c_str_stops_at_nul.
           now apply Forall_firstn_no_nul.
Qed.

(** The constructor's loop stores, in order, pointers to the words that
    follow the saved pointer; it leaves the block in front of the saved
    pointer as it was. *)
Lemma ArgParser_loop_words (b : list ascii) (fuel : nat) :
  Forall (fun c => is_nul c = false) b ->
  forall tok st av st' av',
    List.length (mem st) = List.length b ->
    skipn (save st) (mem st) = skipn (save st) b ->
    (save st <= List.length b)%nat ->
    ArgParser_loop fuel (Some tok) st av = Some (st', av') ->
    exists ps,
      av' = av ++ map Some ps
      /\ List.length (mem st') = List.length b
      /\ firstn (save st) (mem st') = firstn (save st) (mem st)
      /\ map (cstr_at (mem st')) ps = split_ws [] (skipn (save st) b).
Proof.
  intros Hnul. induction fuel as [|f IH];
    intros tok [m sv] av st' av' Hlen Hsuf Hsv Hloop; [discriminate|].
  cbn [mem save] in *. cbn [ArgParser_loop] in Hloop.
  pose proof (strtok_next b m sv Hnul Hlen Hsuf Hsv) as Hnext.
  destruct (strtok None {| mem := m; save := sv |}) as [[p|] st1].
  - destruct Hnext as (Hlen1 & Hsuf1 & Hsv1 & Hpre1 & tk & Hsplit & Htext).
    destruct (IH p st1 _ st' av' Hlen1 Hsuf1 ltac:(lia) Hloop)
      as (ps & -> & Hlen' & Hpre' & Hwords).
    exists (p :: ps). repeat split.
    + now rewrite <- app_assoc.
    + assumption.
    + rewrite <- Hpre1.
      rewrite <- (Nat.min_l sv (save st1)) by lia.
      rewrite <- !firstn_firstn. now rewrite Hpre'.
    + cbn [map]. rewrite Hsplit, Hwords. f_equal.
      now apply Htext.
  - destruct Hnext as [Hmem Hsplit].
    assert (Hdone : ArgParser_loop f None st1 av = Some (st1, av))
      by now destruct f.
    rewrite Hdone in Hloop. injection Hloop as <- <-.
    exists []. rewrite app_nil_r, Hmem, Hsplit. repeat split. assumption.
Qed.

(** The texts behind the stored pointers: the first word twice, then the
    other words in order; a single null pointer when there is no word. *)
Lemma ArgParser_texts (command : string) :
  exists a,
    ArgParser_ctor command = Some a
    /\ map (ArgParser_text a) (argv a)
       = match words command with
         | [] => [None]
         | w :: ws => Some w :: Some w :: map Some ws
         end.
Proof.
  unfold ArgParser_ctor, words, strdup.
  set (b := c_str (list_ascii_of_string command)).
  pose proof (c_str_no_nul (list_ascii_of_string command)) as Hnul.
  fold b in Hnul.
  change (strtok (Some O) {| mem := b; save := O |})
    with (strtok None {| mem := b; save := O |}).
  pose proof (strtok_next b b O Hnul eq_refl eq_refl (Nat.le_0_l _)) as Hnext.
  destruct (strtok None {| mem := b; save := O |}) as [[p|] st1].
  - destruct Hnext as (Hlen1 & Hsuf1 & Hsv1 & _ & tk & Hsplit & Htext).
    destruct (ArgParser_loop_total (S (List.length b)) (Some p) st1
                ([Some p] ++ [Some p])) as [[st' av'] Hloop]; [lia|lia|].
    rewrite Hloop. eexists. split; [reflexivity|]. cbn [argv].
    destruct (ArgParser_loop_words b _ Hnul p st1 _ st' av' Hlen1 Hsuf1
                ltac:(lia) Hloop) as (ps & -> & Hlen' & Hpre' & Hwords).
    cbn [skipn] in Hsplit. rewrite Hsplit. cbn [map app].
    unfold ArgParser_text at 1 2. cbn [buffer].
    rewrite (Htext (mem st') Hlen' Hpre'). do 2 f_equal.
    rewrite <- Hwords, !map_map. reflexivity.
  - destruct Hnext as [_ Hsplit]. cbn [skipn] in Hsplit. rewrite Hsplit.
    cbn. eexists. split; reflexivity.
Qed.

(** The first call of [strtok] on a block returns the offset of the
    block's first character that is no delimiter. *)
Lemma strtok_first_offset (st : strtok_state) (p : nat) :
  fst (strtok (Some O) st) = Some p -> p = strspn (mem st).
Proof.
  unfold strtok. cbn [Nat.add skipn].
  destruct (is_nul (peek (mem st) (strspn (mem st)))); [discriminate|].
  destruct (is_nul _); cbn [fst]; intros [= <-]; reflexivity.
Qed.

(** C9. For every command string the constructor of [ArgParser] returns,
    and it stores the first token [strtok] finds an extra time. When the
    command holds a token, that token is the pointer to the command's
    first character that is no delimiter; [argv[0]] and [argv[1]] are
    both this pointer, followed by the pointers to the other words; the
    texts behind [argv] are the first word twice and then the other
    words, so that [runUtility] passes the utility's name again as the
    first element of the argument array, with the number of words as the
    count. When the command is empty or blank, the first call of
    [strtok] returns null and [argv] is that one null pointer. *)
Theorem ArgParser_stores_first_token_twice (command : string) :
  let block := strdup (list_ascii_of_string command) in
  let first := fst (strtok (Some O) {| mem := block; save := O |}) in
  exists a,
    ArgParser_ctor command = Some a
    /\ if has_token command then
         exists w ws rest,
           words command = w :: ws
           /\ first = Some (strspn block)
           /\ argv a = first :: first :: rest
           /\ nth 1 (argv a) None = nth 0 (argv a) None
           /\ map (ArgParser_text a) (argv a)
              = Some w :: Some w :: map Some ws
           /\ runUtility_args a
              = Ok (Some w, Z.of_nat (List.length (w :: ws)),
                    Some w :: map Some ws)
       else
         first = None /\ argv a = [first].
Proof.
  intros block first.
  destruct (ArgParser_texts command) as (a & Ha & Htexts).
  exists a. split; [exact Ha|].
  pose proof (strtok_first command) as Hfirst. cbv zeta in Hfirst.
  pose proof (strtok_first_offset {| mem := block; save := O |}) as Hoff.
  unfold ArgParser_ctor in Ha. fold block in Ha, Hfirst.
  subst first.
  destruct (strtok (Some O) {| mem := block; save := O |}) as [token st].
  cbn [fst mem] in *.
  destruct token as [p|]; rewrite Hfirst.
  - destruct (ArgParser_loop (S (List.length block)) (Some p) st
                ([Some p] ++ [Some p])) as [[st' av']|] eqn:Hloop;
      [|discriminate].
    injection Ha as <-.
    apply ArgParser_loop_extends in Hloop. destruct Hloop as [rest ->].
    cbn [argv app map] in *.
    destruct (words command) as [|w ws]; [discriminate|].
    injection Htexts as Hname _ Hrest.
    exists w, ws, rest. rewrite <- (Hoff p eq_refl).
    assert (Htext : ArgParser_text
                      {| buffer := mem st';
                         argv := Some p :: Some p :: rest |} (Some p)
                    = Some w)
      by (unfold ArgParser_text; cbn [buffer]; now rewrite Hname).
    repeat split.
    + now rewrite Htext, Hrest.
    + unfold runUtility_args. cbn [argv map List.length].
      rewrite Htext, Hrest. do 3 f_equal.
      rewrite <- (length_map Some ws), <- Hrest, length_map. lia.
  - cbn in Ha. injection Ha as <-. split; reflexivity.
Qed.

(** X1. For every command, the constructor of [ArgParser] returns, and
    the texts its pointers designate are the first word of the command
    twice, then its other words in order; with no word, the one pointer
    stored is null. *)
Theorem ArgParser_finds_the_words (command : string) :
  exists a,
    ArgParser_ctor command = Some a
    /\ map (ArgParser_text a) (argv a)
       = match words command with
         | [] => [None]
         | w :: ws => Some w :: Some w :: map Some ws
         end.
Proof.
  unfold ArgParser_ctor, words, strdup.
  set (b := c_str (list_ascii_of_string command)).
  pose proof (c_str_no_nul (list_ascii_of_string command)) as Hnul.
  fold b in Hnul.
  change (strtok (Some O) {| mem := b; save := O |})
    with (strtok None {| mem := b; save := O |}).
  pose proof (strtok_next b b O Hnul eq_refl eq_refl (Nat.le_0_l _)) as Hnext.
  destruct (strtok None {| mem := b; save := O |}) as [[p|] st1].
  - destruct Hnext as (Hlen1 & Hsuf1 & Hsv1 & _ & tk & Hsplit & Htext).
    destruct (ArgParser_loop_total (S (List.length b)) (Some p) st1
                ([Some p] ++ [Some p])) as [[st' av'] Hloop]; [lia|lia|].
    rewrite Hloop. eexists. split; [reflexivity|]. cbn [argv].
    destruct (ArgParser_loop_words b _ Hnul p st1 _ st' av' Hlen1 Hsuf1
                ltac:(lia) Hloop) as (ps & -> & Hlen' & Hpre' & Hwords).
    cbn [skipn] in Hsplit. rewrite Hsplit. cbn [map app].
    unfold ArgParser_text at 1 2. cbn [buffer].
    rewrite (Htext (mem st') Hlen' Hpre'). do 2 f_equal.
    rewrite <- Hwords, !map_map. reflexivity.
  - destruct Hnext as [_ Hsplit]. cbn [skipn] in Hsplit. rewrite Hsplit.
    cbn. eexists. split; reflexivity.
Qed.

(** X2. For every command that holds a word and every state,
    [runUtility] returns, and it calls [csoundRunUtility] once on the
    controller's handle, with the first word as the name, the number of
    words as the count and the words as the array; it changes nothing
    but the engine's world. For a command without a word it takes
    [&argv[1]] of a vector that holds one element, which is undefined,
    and the engine is not called. *)
Theorem runUtility_passes_the_words
    {MYFLT World : Type} {E : Engine MYFLT World}
    (command : string) (s : CSound MYFLT World) :
  runUtility command s
  = match words command with
    | [] => Undefined OutOfBounds
    | w :: ws =>
        let r := csoundRunUtility (csound s) (Some w)
                   (Z.of_nat (List.length (w :: ws)))
                   (map Some (w :: ws)) (world s) in
        Ok (fst r, set_world (snd r) s)
    end.
Proof.
  unfold runUtility.
  destruct (ArgParser_texts command) as (a & -> & Htexts).
  unfold runUtility_args.
  destruct (words command) as [|w ws].
  - destruct (argv a) as [|x [|y av]]; try discriminate. reflexivity.
  - destruct (argv a) as [|x [|y av]]; try discriminate.
    cbn [map] in Htexts. injection Htexts as Hx Hy Hav.
    cbn [map List.length]. rewrite Hx, Hy, Hav.
    replace (Z.of_nat (S (S (List.length av))) - 1)
      with (Z.of_nat (S (List.length ws))).
    + cbv zeta. now destruct (csoundRunUtility _ _ _ _ _).
    + rewrite <- (length_map Some ws), <- Hav, length_map. lia.
Qed.

Example words_of_a_command :
  words "  sndinfo  a.wav " = ["sndinfo"; "a.wav"]%string.
Proof. reflexivity. Qed.

(** ** The score event's constructor, for every count *)

(** X3. For every opcode, buffer and count: with a count of zero or less
    the constructor builds an event without pfields; with a positive
    count its first iteration indexes the empty member vector, which is
    undefined. In neither case is the caller's buffer read. *)
Theorem CsoundThreadEventScoreEvent_ctor_by_count {MYFLT : Type}
    (fuel : nat) (opcode_ : ascii) (pfields_ : list MYFLT)
    (pfield_count : Z) :
  CsoundThreadEventScoreEvent_ctor (S fuel) opcode_ pfields_ pfield_count
  = if 0 <? pfield_count then Undefined OutOfBounds
    else Ok {| opcode := opcode_; pfields := [] |}.
Proof.
  unfold CsoundThreadEventScoreEvent_ctor.
  destruct (0 <? pfield_count) eqn:Hn.
  - now rewrite CsoundThreadEventScoreEvent_loop_first by lia.
  - now rewrite CsoundThreadEventScoreEvent_loop_none by lia.
Qed.

(** ** The queue and the performance thread *)

Section Queue.
Context {MYFLT World : Type} {E : Engine MYFLT World}.

Local Abbreviation state := (CSound MYFLT World).
Local Abbreviation tevent := (CsoundThreadEvent MYFLT).

Lemma freed_app (a b : list (event MYFLT)) :
  freed (a ++ b) = freed a ++ freed b.
Proof.
  induction a as [|x a IH]; simpl; [reflexivity|].
  destruct x; simpl; now rewrite ?IH.
Qed.

Lemma pushed_cons (a : action MYFLT) (rest : list (action MYFLT)) :
  pushed (a :: rest) = pushed [a] ++ pushed rest.
Proof. destruct a; reflexivity. Qed.

Lemma act_conserves_queue (a : action MYFLT) (s : state) :
  freed (trace (act a s)) ++ csound_event_queue (act a s)
  = freed (trace s) ++ csound_event_queue s ++ pushed [a].
Proof.
  destruct a as [|e]; simpl; [|reflexivity].
  rewrite app_nil_r. unfold performanceThreadRoutine_step.
  destruct (performance_thread s) as [t|]; [|reflexivity].
  destruct (at_pc t).
  - destruct (is_running s =? 0); reflexivity.
  - destruct (loop_condition s t); reflexivity.
  - destruct (csound_event_queue s) as [|e q] eqn:Hq;
      [setters; now rewrite Hq|].
    destruct (call e (csound s) (world s)). setters.
    rewrite freed_app. simpl. now rewrite <- app_assoc.
  - destruct (csoundPerformKsmps (csound s) (world s)). setters.
    rewrite freed_app. simpl. now rewrite app_nil_r.
  - destruct (csoundCleanup (csound s) (world s)). setters.
    rewrite freed_app. simpl. now rewrite app_nil_r.
  - setters. rewrite freed_app. simpl. now rewrite app_nil_r.
  - destruct (csound_event_queue s) as [|e q] eqn:Hq;
      [setters; now rewrite Hq|]. setters.
    rewrite freed_app. simpl. now rewrite <- app_assoc.
  - reflexivity.
Qed.

(** X4. Under every schedule and from every state, no queued event is
    lost or handled twice: the events freed so far, followed by the
    queue, are the events freed before, followed by the queue before and
    by what the schedule enqueued, in that order. *)
Theorem queue_is_conserved (sched : list (action MYFLT)) :
  forall s : state,
    freed (trace (run sched s)) ++ csound_event_queue (run sched s)
    = freed (trace s) ++ csound_event_queue s ++ pushed sched.
Proof.
  induction sched as [|a rest IH]; intros s.
  - simpl. now rewrite app_nil_r.
  - cbn [run]. rewrite IH, pushed_cons.
    rewrite !app_assoc. f_equal. rewrite <- app_assoc.
    apply act_conserves_queue.
Qed.

(** X5. Once the thread has passed its entry test, nothing it does
    writes the running flag: while no caller stores it, a flag that is
    set stays set, so [isPerforming] still answers true after the
    routine has returned. *)
Theorem flag_outlives_the_performance (sched : list (action MYFLT))
    (s : state) :
  at_entry s = false ->
  is_running s <> 0 ->
  is_running (run sched s) = is_running s
  /\ isPerforming (run sched s) = true.
Proof.
  intros Hentry Hflag.
  destruct (run_keeps_flag sched s Hentry) as [Hkeep _].
  split; [exact Hkeep|]. unfold isPerforming. rewrite Hkeep.
  destruct (is_running s =? 0) eqn:H0; [lia|reflexivity].
Qed.

(** X6. A thread that finds the running flag set at its entry test
    returns the flag's value at once: under every schedule it calls
    nothing on the engine and frees nothing, the flag is unchanged, and
    the queue only grows by what is enqueued. *)
Theorem entry_with_flag_set_does_nothing (sched : list (action MYFLT)) :
  forall (s : state) (t : Thread),
    performance_thread s = Some t ->
    at_pc t = AtEntry ->
    is_running s <> 0 ->
    trace (run sched s) = trace s
    /\ world (run sched s) = world s
    /\ is_running (run sched s) = is_running s
    /\ csound_event_queue (run sched s)
       = csound_event_queue s ++ pushed sched
    /\ (In Tick sched ->
        performance_thread (run sched s)
        = Some (goto (Returned (is_running s)) t)).
Proof.
  induction sched as [|a rest IH]; intros s t Ht Hpc Hflag.
  - simpl. rewrite app_nil_r. repeat split. contradiction.
  - destruct a as [|e]; cbn [run act].
    + assert (Hstep : performanceThreadRoutine_step s
                      = set_thread (Some (goto (Returned (is_running s)) t))
                          s).
      { unfold performanceThreadRoutine_step. rewrite Ht, Hpc.
        destruct (is_running s =? 0) eqn:H0; [lia|reflexivity]. }
      rewrite Hstep, run_after_return by reflexivity.
      repeat split.
    + destruct (IH (push e s) t Ht Hpc Hflag) as (H1 & H2 & H3 & H4 & H5).
      rewrite H1, H2, H3, H4. setters. rewrite <- app_assoc.
      repeat split. intros [Hin|Hin]; [discriminate|auto].
Qed.

End Queue.

(** ** The life of a performance *)

Section Lifecycle.
Context {MYFLT World : Type} {E : Engine MYFLT World}.

Local Abbreviation state := (CSound MYFLT World).
Local Abbreviation tevent := (CsoundThreadEvent MYFLT).

(** With an engine that never reports the end, a thread in front of its
    entry with the flag [0], or inside the loop with the flag [1], stays
    so whatever happens next. *)
Lemma act_keeps_looping (a : action MYFLT) (s : state) :
  never_finishes E ->
  (at_entry s = true /\ is_running s = 0)
  \/ (in_loop s = true /\ is_running s = 1) ->
  (at_entry (act a s) = true /\ is_running (act a s) = 0)
  \/ (in_loop (act a s) = true /\ is_running (act a s) = 1).
Proof.
  intros Hnever. destruct a as [|e]; [|auto]. cbn [act].
  unfold at_entry, in_loop, performanceThreadRoutine_step.
  destruct (performance_thread s) as [t|] eqn:Ht;
    [|intros [[H _]|[H _]]; discriminate].
  destruct (at_pc t) eqn:Hpc; intros [[H Hflag]|[H Hflag]];
    try discriminate.
  - rewrite Hflag. setters. right. auto.
  - unfold loop_condition. rewrite Hflag, H. setters. right. auto.
  - destruct (csound_event_queue s) as [|e q]; setters; [right; auto|].
    destruct (call e (csound s) (world s)). setters.
    rewrite Ht, Hpc. right. auto.
  - pose proof (Hnever (csound s) (world s)) as H0.
    destruct (csoundPerformKsmps (csound s) (world s)) as [r w].
    cbn [fst] in H0. subst r. setters. right. auto.
Qed.

Lemma run_keeps_looping (sched : list (action MYFLT)) :
  never_finishes E ->
  forall s : state,
    (at_entry s = true /\ is_running s = 0)
    \/ (in_loop s = true /\ is_running s = 1) ->
    (at_entry (run sched s) = true /\ is_running (run sched s) = 0)
    \/ (in_loop (run sched s) = true /\ is_running (run sched s) = 1).
Proof.
  intros Hnever. induction sched as [|a rest IH]; intros s Hs; [exact Hs|].
  cbn [run]. apply IH. now apply act_keeps_looping.
Qed.

Lemma looping_has_not_returned (s : state) :
  (at_entry s = true /\ is_running s = 0)
  \/ (in_loop s = true /\ is_running s = 1) ->
  exists t, performance_thread s = Some t /\ has_returned t = false.
Proof.
  unfold at_entry, in_loop, has_returned.
  destruct (performance_thread s) as [t|];
    [|intros [[H _]|[H _]]; discriminate].
  intros H. exists t. split; [reflexivity|].
  destruct (at_pc t); try reflexivity. destruct H as [[H _]|[H _]];
    discriminate.
Qed.

(** X7. With an engine that never reports the end and the running flag
    [1], a thread inside the loop stays inside the loop under every
    schedule: whatever is enqueued and whatever the calls return, the
    routine does not return while no caller stores the flag. *)
Theorem loop_runs_until_told (sched : list (action MYFLT)) (s : state) :
  never_finishes E ->
  in_loop s = true ->
  is_running s = 1 ->
  in_loop (run sched s) = true
  /\ is_running (run sched s) = 1
  /\ thread_returned (run sched s) = false.
Proof.
  intros Hnever Hin Hflag.
  destruct (run_keeps_looping sched Hnever s (or_intror (conj Hin Hflag)))
    as [[Hentry _]|[Hin' Hflag']].
  - exfalso.
    assert (Hno : at_entry s = false).
    { unfold at_entry, in_loop in *.
      destruct (performance_thread s) as [t|]; [|reflexivity].
      destruct (at_pc t); try reflexivity; discriminate. }
    destruct (run_keeps_flag sched s Hno) as [_ Hno']. congruence.
  - repeat split; try assumption.
    destruct (looping_has_not_returned _ (or_intror (conj Hin' Hflag')))
      as (t & Ht & Hret).
    unfold thread_returned. now rewrite Ht.
Qed.


(** Nothing a schedule does stores the engine handle. *)
Lemma act_keeps_csound (a : action MYFLT) (s : state) :
  csound (act a s) = csound s.
Proof.
  destruct a as [|e]; [|reflexivity].
  cbn [act]. unfold performanceThreadRoutine_step.
  destruct (performance_thread s) as [t|]; [|reflexivity].
  destruct (at_pc t); try reflexivity.
  - now destruct (is_running s =? 0).
  - now destruct (loop_condition s t).
  - destruct (csound_event_queue s); [reflexivity|].
    now destruct (call _ _ _).
  - now destruct (csoundPerformKsmps _ _).
  - now destruct (csoundCleanup _ _).
  - now destruct (csound_event_queue s).
Qed.

Lemma run_keeps_csound (sched : list (action MYFLT)) :
  forall s : state, csound (run sched s) = csound s.
Proof.
  induction sched as [|a rest IH]; intros s; [reflexivity|].
  cbn [run]. now rewrite IH, act_keeps_csound.
Qed.


(** [stop] is [stop_interleaved] with nothing between its first two
    statements. *)
Lemma stop_interleaved_nil (sched : list (action MYFLT)) (s : state) :
  stop_interleaved [] sched s = stop sched s.
Proof. reflexivity. Qed.



(** X10. Events enqueued before [perform] wait for the first drain: on a
    controller that holds no thread, [perform] returns at once, and the
    new thread, running alone, first calls every event that was queued,
    in order, and only then renders its first block. *)
Theorem queued_before_perform_is_applied_first
    (sched : list (action MYFLT)) (s : state) :
  performance_thread s = None ->
  let p := csound s in
  let q := csound_event_queue s in
  let k := csoundPerformKsmps p (apply_all p q (world s)) in
  exists s1,
    perform sched s = Some (Some new_thread, s1)
    /\ run (repeat Tick (List.length q + 4)) s1
       = {| csound := p; is_running := 1; csound_event_queue := [];
            performance_thread :=
              Some {| at_pc := AtLoopTest; is_finished := fst k;
                      result := 0 |};
            world := snd k;
            trace := trace s ++ [EvSpawn] ++ called q ++ [EvPerformKsmps] |}.
Proof.
  intros Ht p q k. unfold perform, stop.
  change (performance_thread (set_is_running 0 s))
    with (performance_thread s).
  rewrite Ht. eexists. split; [reflexivity|].
  destruct s as [p0 ir q0 th w tr]. cbn [performance_thread] in Ht.
  subst th p q k. setters.
  replace (List.length q0 + 4)%nat with (2 + (List.length q0 + 2))%nat
    by lia.
  rewrite ticks_add. cbn [repeat run act].
  unfold performanceThreadRoutine_step at 2. setters. cbn [Z.eqb].
  unfold performanceThreadRoutine_step at 1. unfold new_thread. setters.
  unfold loop_condition. setters. cbn [Z.eqb Pos.eqb andb].
  match goal with
  | |- run _ ?st = _ => rewrite (iteration_ticks st _ eq_refl eq_refl)
  end.
  fields. f_equal. now rewrite <- app_assoc.
Qed.

(** X11. A score handed to [readScore] while the thread drains is called
    on the engine after every event that was queued before it;
    [csoundReadScore] is given the score's [c_str()], the text in front
    of its first NUL, and the drain then leaves the queue empty. *)
Theorem readScore_is_applied_last (score_ : string) (s : state)
    (t : Thread) :
  performance_thread s = Some t ->
  at_pc t = AtPop ->
  let p := csound s in
  let q := csound_event_queue s in
  let e := ScoreObj (CsoundThreadEventScore_ctor score_) in
  run (repeat Tick (List.length q + 1)) (readScore score_ s)
  = {| csound := p; is_running := is_running s; csound_event_queue := [];
       performance_thread := Some t;
       world :=
         snd (csoundReadScore p (c_str_of score_)
                (apply_all p q (world s)));
       trace := trace s ++ called q ++ [EvCall e; EvDelete e] |}.
Proof.
  intros Ht Hpc p q e. unfold readScore. fold e.
  destruct s as [p0 ir q0 th w tr]. cbn [performance_thread] in Ht.
  subst th. setters. subst p q. fields.
  replace (List.length q0 + 1)%nat with (List.length (q0 ++ [e]))
    by (rewrite length_app; reflexivity).
  rewrite (drain_ticks (q0 ++ [e]) p0 ir t w tr Hpc). f_equal.
  - unfold apply_all. rewrite fold_left_app. reflexivity.
  - now rewrite called_app.
Qed.



(** X13. [destroy] does not clear the engine handle: after a [destroy]
    that released the engine, the handle is the one just released, and a
    further [destroy] (such as the destructor's) calls [csoundDestroy]
    on it again. *)
Theorem destroy_keeps_the_handle (sched : list (action MYFLT))
    (s s1 : state) :
  csound s <> 0 ->
  destroy sched s = Some s1 ->
  csound s1 = csound s
  /\ (exists w0 tr0,
        world s1 = csoundDestroy (csound s) w0
        /\ trace s1 = tr0 ++ [EvDestroy])
  /\ forall sched',
       destroy sched' s1
       = Some (observe [EvDestroy]
                 (set_world (csoundDestroy (csound s) (world s1))
                    (set_is_running 0 s1))).
Proof.
  intros Hnull. unfold destroy at 1.
  destruct (csound s =? 0) eqn:H0; [lia|].
  destruct (stop sched s) as [[r s0]|] eqn:Hstop; [|discriminate].
  intros [= <-].
  destruct (stop_inversion sched s s0 r Hstop) as (_ & Hnone & Hcase).
  assert (Hcs : csound s0 = csound s).
  { destruct (performance_thread s) as [t|] eqn:Ht.
    - destruct Hcase as [_ ->]. unfold observe, set_thread. fields.
      now rewrite run_keeps_csound.
    - now subst s0. }
  setters. rewrite Hcs. repeat split.
  - eauto.
  - intros sched'. unfold destroy, stop. setters. now rewrite H0, Hnone.
Qed.



End Lifecycle.

(** ** The further properties on the stub engine *)

Lemma flag_outlives_the_performance_witness :
  thread_returned (run (E := Stub2) (repeat Tick 8) performing) = true
  /\ isPerforming (run (E := Stub2) (repeat Tick 8) performing) = true.
Proof.
  split; [reflexivity|].
  exact (proj2 (flag_outlives_the_performance (E := Stub2) (repeat Tick 8)
                  performing eq_refl ltac:(discriminate))).
Defined.

Lemma entry_with_flag_set_does_nothing_witness :
  is_running respawned = 1
  /\ trace (run (E := Stub2) [Push note; Tick; Tick; Tick] respawned)
     = trace respawned
  /\ csound_event_queue
       (run (E := Stub2) [Push note; Tick; Tick; Tick] respawned)
     = [note].
Proof.
  split; [reflexivity|].
  destruct (entry_with_flag_set_does_nothing (E := Stub2)
              [Push note; Tick; Tick; Tick] respawned new_thread
              eq_refl eq_refl ltac:(discriminate))
    as (Htr & _ & _ & Hq & _).
  split; [exact Htr|exact Hq].
Defined.

Lemma loop_runs_until_told_witness :
  thread_returned
    (run (E := endless Stub2) (repeat Tick 40 ++ [Push note; Tick])
         performing)
  = false.
Proof.
  exact (proj2 (proj2 (loop_runs_until_told (E := endless Stub2)
                         (repeat Tick 40 ++ [Push note; Tick]) performing
                         (fun _ _ => eq_refl) eq_refl eq_refl))).
Defined.



Lemma queued_before_perform_is_applied_first_witness :
  exists s1,
    perform (E := Stub2) [] (readScore "i 1 0" ready)
    = Some (Some new_thread, s1)
    /\ world (run (E := Stub2) (repeat Tick 5) s1)
       = [CallReadScore "i 1 0"; CallPerformKsmps].
Proof.
  destruct (queued_before_perform_is_applied_first (E := Stub2) []
              (readScore "i 1 0" ready) eq_refl) as (s1 & Hperf & Hrun).
  exists s1. split; [exact Hperf|].
  exact (f_equal world Hrun).
Defined.

Lemma readScore_is_applied_last_witness :
  world (run (E := Stub2) (repeat Tick 3) (readScore "e" draining))
  = [CallPerformKsmps; CallReadScore "i 1 0"; CallScoreEvent "i" [] 0;
     CallReadScore "e"].
Proof.
  exact (f_equal world
           (readScore_is_applied_last (E := Stub2) "e" draining
              {| at_pc := AtPop; is_finished := 0; result := 0 |}
              eq_refl eq_refl)).
Defined.


Lemma destroy_keeps_the_handle_witness :
  exists s1 s2,
    destroy (E := Stub2) (repeat Tick 4) performing = Some s1
    /\ destroy (E := Stub2) [] s1 = Some s2
    /\ world s2
       = [CallPerformKsmps; CallCleanup; CallReset; CallDestroy;
          CallDestroy].
Proof.
  eexists. eexists. split; [vm_compute; reflexivity|].
  split.
  - exact (proj2 (proj2 (destroy_keeps_the_handle (E := Stub2)
                           (repeat Tick 4) performing _
                           ltac:(discriminate) eq_refl)) []).
  - reflexivity.
Defined.


(** ** [scoreEvent] and [create] *)

(** X15. Whenever [scoreEvent] enqueues anything, the count was zero or
    less and the event enqueued carries the opcode and no pfields; its
    call hands the engine the opcode with an empty pfield array and the
    count [0], whatever the caller's buffer held. *)
Theorem scoreEvent_delivers_no_pfields
    {MYFLT World : Type} {E : Engine MYFLT World}
    (fuel : nat) (opcode_ : ascii) (pfields_ : list MYFLT)
    (pfield_count : Z) (s s' : CSound MYFLT World) :
  scoreEvent (S fuel) opcode_ pfields_ pfield_count s = Ok s' ->
  pfield_count <= 0
  /\ s' = push (ScoreEventObj {| opcode := opcode_; pfields := [] |}) s
  /\ forall p w,
       call (ScoreEventObj {| opcode := opcode_; pfields := [] |}) p w
       = csoundScoreEvent p opcode_ [] 0 w.
Proof.
  unfold scoreEvent, CsoundThreadEventScoreEvent_ctor.
  destruct (0 <? pfield_count) eqn:Hn.
  - rewrite CsoundThreadEventScoreEvent_loop_first by lia. discriminate.
  - rewrite CsoundThreadEventScoreEvent_loop_none by lia.
    intros [= <-]. repeat split. lia.
Qed.

Lemma scoreEvent_delivers_no_pfields_witness :
  scoreEvent 1 "i"%char [1%float; 0%float; 1%float] 0 ready
  = Ok (push note ready)
  /\ call (E := Stub2) note 1 [] = (0, [CallScoreEvent "i" [] 0]).
Proof.
  destruct (scoreEvent_delivers_no_pfields (E := Stub2) 0 "i"%char
              [1%float; 0%float; 1%float] 0 ready (push note ready) eq_refl)
    as (_ & _ & Hcall).
  split; [reflexivity|]. exact (Hcall 1 []).
Defined.

(** X16. When [create] returns, the handle stored is the one returned,
    fresh from [csoundCreate] on the world [destroy] left. If the
    controller held an engine, that engine was destroyed just before,
    after [stop]: no thread is held any more. *)
Theorem create_replaces_the_engine
    {MYFLT World : Type} {E : Engine MYFLT World}
    (sched : list (action MYFLT)) (userdata : Z)
    (s s' : CSound MYFLT World) (p : CSOUND_ptr) :
  create sched userdata s = Some (p, s') ->
  csound s' = p
  /\ exists s0,
       destroy sched s = Some s0
       /\ csoundCreate userdata (world s0) = (p, world s')
       /\ trace s' = trace s0
       /\ csound_event_queue s' = csound_event_queue s0
       /\ (csound s <> 0 ->
           performance_thread s' = None
           /\ exists tr w, trace s0 = tr ++ [EvDestroy]
                           /\ world s0 = csoundDestroy (csound s) w).
Proof.
  unfold create.
  destruct (destroy sched s) as [s0|] eqn:Hd; [|discriminate].
  destruct (csoundCreate userdata (world s0)) as [p0 w0] eqn:Hc.
  intros [= <- <-]. split; [reflexivity|].
  exists s0. split; [reflexivity|]. split; [exact Hc|].
  split; [reflexivity|]. split; [reflexivity|].
  intros Hnull. setters.
  unfold destroy in Hd. destruct (csound s =? 0) eqn:H0; [lia|].
  destruct (stop sched s) as [[r s1]|] eqn:Hstop; [|discriminate].
  injection Hd as <-. setters.
  destruct (stop_inversion sched s s1 r Hstop) as (_ & Hnone & Hcase).
  split; [exact Hnone|].
  assert (Hcs : csound s1 = csound s).
  { destruct (performance_thread s).
    - destruct Hcase as [_ ->]. unfold observe, set_thread. fields.
      now rewrite run_keeps_csound.
    - now subst s1. }
  rewrite Hcs. eauto.
Qed.

Lemma create_replaces_the_engine_witness :
  exists s',
    create (E := Stub2) (repeat Tick 4) 0 performing = Some (1, s')
    /\ performance_thread s' = None
    /\ world s'
       = [CallPerformKsmps; CallCleanup; CallReset; CallDestroy;
          CallCreate 0].
Proof.
  eexists. split; [vm_compute; reflexivity|].
  destruct (create_replaces_the_engine (E := Stub2) (repeat Tick 4) 0
              performing _ 1 eq_refl) as (_ & s0 & _ & _ & _ & _ & H).
  split; [exact (proj1 (H ltac:(discriminate)))|reflexivity].
Defined.

(** A score with an embedded NUL reaches the engine cut at the NUL. *)
Example readScore_cuts_at_nul :
  world (run (E := Stub2) [Tick]
           (readScore (String "i" (String " " (String "1"
                         (String Ascii.zero "xx"))))
              (run (E := Stub2) [Tick] performing)))
  = [CallPerformKsmps; CallReadScore "i 1"].
Proof. reflexivity. Qed.

Example runUtility_on_the_stub :
  runUtility (E := Stub2) "  sndinfo  a.wav " ready
  = Ok (0, set_world [CallRunUtility (Some "sndinfo"%string) 2
                        [Some "sndinfo"%string; Some "a.wav"%string]]
             ready)
  /\ runUtility (E := Stub2) "   " ready = Undefined OutOfBounds.
Proof. split; reflexivity. Qed.
